(** * Build-a-Board chess visualization: the ETL aggregator and the
      front-end data model

    [etl.js] streams two game-log formats, turns every game into a list of
    move tokens ["W1.e4"; "B1.e5"; ...] and counts, per ply, which piece
    moved and where it went.  [visualization.js] reads the counters back
    and derives per-row, per-column and per-colour series from them.

    Conventions of the embedding:
    - a JavaScript string is a [string] (one [ascii] per code unit; the
      inputs of both formats are ASCII text);
    - a JavaScript number holding an integer is a [Z] (exact below 2^53),
      and [NaN] is [None] in an [option Z]; a count is a [nat];
    - a [TypeError] or an [Error] that the code can raise is [None] in the
      result of the function that raises it;
    - the name-indexed [Map] of counters is a [gmap string Counts] together
      with the list of its keys in insertion order;
    - a file is the list of the chunks it is read in, each chunk the list
      of the lines [readline] emits for it. *)

From Stdlib Require Import ZArith Ascii DecimalString.
From stdpp Require Import base option list gmap strings fin_maps.

Local Open Scope Z_scope.

(** ** The pieces of the JavaScript runtime that the code relies on *)

Module JS.

Definition code (c : ascii) : Z := Z.of_nat (nat_of_ascii c).

(** [a <= c && c <= b] on one-character strings compares code units. *)
Definition inRange (a b c : ascii) : bool :=
  (code a <=? code c) && (code c <=? code b).

Definition isDigit (c : ascii) : bool := inRange "0" "9" c.

(** The class [\s] and the characters [trim] removes, among the code
    units below 256: TAB, LF, VT, FF, CR, SPACE and NBSP. *)
Definition isSpace (c : ascii) : bool :=
  inRange "009" "013" c || (code c =? 32) || (code c =? 160).

Definition notSpace (c : ascii) : bool := negb (isSpace c).

Definition dquote : ascii := "034".

(** [s[i]]: [None] is [undefined]. *)
Definition charAt (s : string) (i : Z) : option ascii :=
  if i <? 0 then None else String.get (Z.to_nat i) s.

Definition len (s : string) : Z := Z.of_nat (String.length s).

(** [s.substr(start, n)] for [0 <= start]. *)
Definition substr (s : string) (start : Z) (n : nat) : string :=
  String.substring (Z.to_nat start) n s.

(** [s.indexOf(c)] for a one-character needle; [-1] when absent. *)
Fixpoint indexOfFrom (c : ascii) (s : string) (i : Z) : Z :=
  match s with
  | EmptyString => -1
  | String c' s' => if Ascii.eqb c' c then i else indexOfFrom c s' (i + 1)
  end.

Definition indexOf (s : string) (c : ascii) : Z := indexOfFrom c s 0.

Fixpoint trimStart (s : string) : string :=
  match s with
  | String c s' => if isSpace c then trimStart s' else s
  | EmptyString => EmptyString
  end.

Fixpoint trimEnd (s : string) : string :=
  match s with
  | EmptyString => EmptyString
  | String c s' =>
      match trimEnd s' with
      | EmptyString => if isSpace c then EmptyString else String c EmptyString
      | t => String c t
      end
  end.

Definition trim (s : string) : string := trimEnd (trimStart s).

(** [s.split("")]: the one-character strings of [s]. *)
Fixpoint splitChars (s : string) : list string :=
  match s with
  | EmptyString => []
  | String c s' => String c EmptyString :: splitChars s'
  end.

(** [s.split(/\s/)]: a new item starts after every whitespace character,
    so two of them in a row give an empty item. *)
Fixpoint splitSpace (s : string) : list string :=
  match s with
  | EmptyString => [EmptyString]
  | String c s' =>
      if isSpace c then EmptyString :: splitSpace s'
      else match splitSpace s' with
           | item :: items => String c item :: items
           | [] => [String c EmptyString]
           end
  end.

(** *** [parseInt] without a radix argument *)

Definition digitValue (c : ascii) : option Z :=
  if isDigit c then Some (code c - 48)
  else if inRange "a" "z" c then Some (code c - 87)
  else if inRange "A" "Z" c then Some (code c - 55)
  else None.

(** Reads the longest prefix of digits of the radix; [None] when that
    prefix is empty. *)
Fixpoint digitsPrefix (radix : Z) (acc : option Z) (s : string) : option Z :=
  match s with
  | EmptyString => acc
  | String c s' =>
      match digitValue c with
      | Some d =>
          if d <? radix
          then digitsPrefix radix (Some (default 0 acc * radix + d)) s'
          else acc
      | None => acc
      end
  end.

Definition parseUnsigned (s : string) : option Z :=
  match s with
  | String "0" (String x s') =>
      if Ascii.eqb x "x" || Ascii.eqb x "X"
      then digitsPrefix 16 None s'
      else digitsPrefix 10 None s
  | _ => digitsPrefix 10 None s
  end.

Definition parseInt (s : string) : option Z :=
  match trimStart s with
  | String "-" s' => Z.opp <$> parseUnsigned s'
  | String "+" s' => parseUnsigned s'
  | s' => parseUnsigned s'
  end.

(** *** Regular expressions

    The constructs the source's patterns use: literals, character
    classes, sequence, alternation (first alternative first), the greedy
    [+] on a character class, capture groups and the two anchors.  The
    matcher backtracks as the JavaScript one does: [k] is the rest of the
    pattern, and a construct tries its choices in order until [k]
    accepts. *)

Inductive regex : Type :=
| Chr (c : ascii)
| Cls (p : ascii → bool)
| Seq (r1 r2 : regex)
| Alt (r1 r2 : regex)
| Plus (p : ascii → bool)
| Grp (n : nat) (r : regex)
| Bol
| Eol
| Eps.

Fixpoint Str (s : string) : regex :=
  match s with
  | EmptyString => Eps
  | String c s' => Seq (Chr c) (Str s')
  end.

Fixpoint Seqs (rs : list regex) : regex :=
  match rs with
  | [] => Eps
  | r :: rs' => Seq r (Seqs rs')
  end.

(** [n] copies of a class, for [[0-9]{4}]. *)
Fixpoint Rep (n : nat) (p : ascii → bool) : regex :=
  match n with
  | O => Eps
  | S n' => Seq (Cls p) (Rep n' p)
  end.

Definition captures : Type := list (nat * string).

Section Matcher.
Context {A : Type}.

(** After the first character of [p+]: take as many as possible, give
    them back one at a time. *)
Fixpoint more (p : ascii → bool) (pos : nat) (s : string)
    (k : nat → string → option A) : option A :=
  match s with
  | String c s' =>
      if p c
      then match more p (S pos) s' k with
           | Some x => Some x
           | None => k pos s
           end
      else k pos s
  | EmptyString => k pos s
  end.

Fixpoint rmatch (r : regex) (pos : nat) (s : string) (cs : captures)
    (k : nat → string → captures → option A) : option A :=
  match r with
  | Chr c =>
      match s with
      | String c' s' => if Ascii.eqb c' c then k (S pos) s' cs else None
      | EmptyString => None
      end
  | Cls p =>
      match s with
      | String c' s' => if p c' then k (S pos) s' cs else None
      | EmptyString => None
      end
  | Seq r1 r2 =>
      rmatch r1 pos s cs (λ pos' s' cs', rmatch r2 pos' s' cs' k)
  | Alt r1 r2 =>
      match rmatch r1 pos s cs k with
      | Some x => Some x
      | None => rmatch r2 pos s cs k
      end
  | Plus p =>
      match s with
      | String c' s' =>
          if p c' then more p (S pos) s' (λ pos' s'', k pos' s'' cs) else None
      | EmptyString => None
      end
  | Grp n r1 =>
      rmatch r1 pos s cs
        (λ pos' s' cs', k pos' s' ((n, String.substring 0 (pos' - pos) s) :: cs'))
  | Bol => if Nat.eqb pos 0 then k pos s cs else None
  | Eol => match s with EmptyString => k pos s cs | _ => None end
  | Eps => k pos s cs
  end.
End Matcher.

(** A match: where it starts, where it ends, and its groups. *)
Record rmatch_result : Type := MkMatch {
  m_start : nat;
  m_end : nat;
  m_caps : captures
}.

Definition matchAt (r : regex) (pos : nat) (s : string) : option rmatch_result :=
  rmatch r pos s [] (λ pos' _ cs, Some (MkMatch pos pos' cs)).

(** [match[n]] for [n >= 1]. *)
Fixpoint group (n : nat) (cs : captures) : option string :=
  match cs with
  | [] => None
  | (i, v) :: cs' => if Nat.eqb i n then Some v else group n cs'
  end.

(** [re.exec(s)] without the [g] flag: the leftmost match. *)
Fixpoint execFrom (r : regex) (pos : nat) (s : string) : option rmatch_result :=
  match matchAt r pos s with
  | Some m => Some m
  | None =>
      match s with
      | String _ s' => execFrom r (S pos) s'
      | EmptyString => None
      end
  end.

Definition exec (r : regex) (s : string) : option rmatch_result := execFrom r 0 s.

(** [s.matchAll(re)] with the [g] flag: every next search starts where
    the previous match ended (one further after an empty match).  [skip]
    counts the positions still covered by the previous match. *)
Fixpoint matchAllFrom (r : regex) (pos skip : nat) (s : string) : list rmatch_result :=
  match skip with
  | S n =>
      match s with
      | String _ s' => matchAllFrom r (S pos) n s'
      | EmptyString => []
      end
  | O =>
      match matchAt r pos s with
      | Some m =>
          m :: match s with
               | String _ s' => matchAllFrom r (S pos) (m_end m - pos - 1) s'
               | EmptyString => []
               end
      | None =>
          match s with
          | String _ s' => matchAllFrom r (S pos) 0 s'
          | EmptyString => []
          end
      end
  end.

Definition matchAll (r : regex) (s : string) : list rmatch_result :=
  matchAllFrom r 0 0 s.

End JS.

(** ** [etl.js] *)

Module Etl.
Import JS.

(** How a number is printed inside a template literal ([NaN] for a failed
    [parseInt]); the move numbers printed here are small naturals. *)
Definition numToString (n : option Z) : string :=
  match n with
  | Some z => NilZero.string_of_int (Z.to_int z)
  | None => "NaN"
  end.

(** [match[n]]; every group of the patterns below takes part in every
    match, so the default is never used. *)
Definition grp (n : nat) (m : rmatch_result) : string :=
  default "" (group n (m_caps m)).

(** [/([0-9]+)(\.|\.\.\.)\s+(\S+) \{/g] *)
Definition MOVE_PATTERN : regex :=
  Seqs [Grp 1 (Plus isDigit);
        Grp 2 (Alt (Chr ".") (Str "..."));
        Plus isSpace;
        Grp 3 (Plus notSpace);
        Str " {"].

Definition lichessMovesParse (line : string) : list string :=
  (λ m,
     let moveIdx := parseInt (grp 1 m) in
     let player := if String.eqb (grp 2 m) "." then "W" else "B" in
     let move := grp 3 m in
     player +:+ numToString moveIdx +:+ "." +:+ move)
  <$> matchAll MOVE_PATTERN line.

(** [/^\[Date\s+\x22([0-9]{4})\.([0-9]{2})\.([0-9]{2})\x22\]$/], writing
    [\x22] for the double quote. *)
Definition DATE_PATTERN : regex :=
  Seqs [Bol; Str "[Date"; Plus isSpace; Chr dquote;
        Grp 1 (Rep 4 isDigit); Chr "."; Grp 2 (Rep 2 isDigit); Chr ".";
        Grp 3 (Rep 2 isDigit); Chr dquote; Chr "]"; Eol].

(** [/^\[(White|Black)Elo\s+\x22([0-9]+)\x22\]$/] *)
Definition ELO_PATTERN : regex :=
  Seqs [Bol; Chr "["; Grp 1 (Alt (Str "White") (Str "Black")); Str "Elo";
        Plus isSpace; Chr dquote; Grp 2 (Plus isDigit); Chr dquote;
        Chr "]"; Eol].

(** [/^\[Result\s+\x22([^\x22]+)\x22\]$/] *)
Definition RESULT_PATTERN : regex :=
  Seqs [Bol; Str "[Result"; Plus isSpace; Chr dquote;
        Grp 1 (Plus (λ c, negb (Ascii.eqb c dquote))); Chr dquote;
        Chr "]"; Eol].

(** [/^([0-9]+)\.\s+(\S+)/] *)
Definition MOVE_1_PATTERN : regex :=
  Seqs [Bol; Grp 1 (Plus isDigit); Chr "."; Plus isSpace; Grp 2 (Plus notSpace)].

(** The three arguments handed to [new Date]. *)
Definition Date : Type := option Z * option Z * option Z.

Record Game : Type := MkGame {
  index : option Z;
  date : Date;
  result : string;
  welo : option Z;
  belo : option Z;
  len : option Z;
  moves : list string;
  origin : string
}.

(** The variables the line handler of [forEachLichessGame] closes over.
    ([moves] is assigned and cleared inside one call, so it is local.) *)
Record LichessState : Type := MkLichessState {
  l_index : Z;
  l_date : option Date;
  l_result : option string;
  l_welo : option Z;
  l_belo : option Z
}.

Definition lichessStart : LichessState := MkLichessState 0 None None None None.

(** One ['line'] event: the next state, the game handed to the callback
    (if any) and whether [lineReader.close()] was called. *)
Definition lichessLine (maxQuantity : Z) (st : LichessState) (line0 : string)
    : LichessState * option Game * bool :=
  let line := trim line0 in
  let date1 :=
    match exec DATE_PATTERN line with
    | Some m => Some (parseInt (grp 1 m), parseInt (grp 2 m), parseInt (grp 3 m))
    | None => l_date st
    end in
  let '(welo1, belo1) :=
    match exec ELO_PATTERN line with
    | Some m =>
        if String.eqb (grp 1 m) "White"
        then (parseInt (grp 2 m), l_belo st)
        else (l_welo st, parseInt (grp 2 m))
    | None => (l_welo st, l_belo st)
    end in
  let result1 :=
    match exec RESULT_PATTERN line with
    | Some m => Some (grp 1 m)
    | None => l_result st
    end in
  match exec MOVE_1_PATTERN line with
  | Some _ =>
      let moves1 := lichessMovesParse line in
      match date1, result1 with
      | Some d, Some r =>
          if (2 <=? Z.of_nat (length moves1))
          then
            let g := MkGame (Some (l_index st)) d r welo1 belo1
                       (Some (Z.of_nat (length moves1))) moves1 "lichess" in
            let index1 := l_index st + 1 in
            (MkLichessState index1 None None None None, Some g,
             bool_decide (maxQuantity ≤ index1))
          else (MkLichessState (l_index st) None None None None, None, false)
      | _, _ => (MkLichessState (l_index st) None None None None, None, false)
      end
  | None => (MkLichessState (l_index st) date1 result1 welo1 belo1, None, false)
  end.

(** The lines of one chunk: [readline] emits every one of them, also
    those after a line on which [lineReader.close()] was called.  The
    result is the games handed to the callback, the state after the chunk
    and whether [close()] was called. *)
Fixpoint lichessChunk (maxQuantity : Z) (st : LichessState) (lines : list string)
    : list Game * LichessState * bool :=
  match lines with
  | [] => ([], st, false)
  | l :: ls =>
      let '(st', g, closed) := lichessLine maxQuantity st l in
      let '(gs, st'', closed') := lichessChunk maxQuantity st' ls in
      (option_list g ++ gs, st'', closed || closed')
  end.

(** The games handed to the callback, in order, for a file read as a list
    of chunks; once [close()] was called no further chunk is read. *)
Fixpoint lichessLines (maxQuantity : Z) (st : LichessState)
    (chunks : list (list string)) : list Game :=
  match chunks with
  | [] => []
  | c :: cs =>
      let '(gs, st', closed) := lichessChunk maxQuantity st c in
      gs ++ (if closed then [] else lichessLines maxQuantity st' cs)
  end.

Definition forEachLichessGame (chunks : list (list string)) (maxQuantity : Z)
    : list Game :=
  lichessLines maxQuantity lichessStart chunks.

(** *** [forEachProGame]

    The object handed to the callback for a line of the pro format.  The
    date is kept as the three strings given to [new Date]; [result] is
    [undefined] on a line with fewer than three items. *)
Record ProGame : Type := MkProGame {
  p_index : option Z;
  p_date : string * string * string;
  p_result : option string;
  p_welo : option Z;
  p_belo : option Z;
  p_len : option Z;
  p_moves : list string;
  p_origin : string
}.

(** [parseInt(lineItems[i])]; [parseInt(undefined)] is [NaN]. *)
Definition parseIntItem (item : option string) : option Z := item ≫= parseInt.

(** The loop over [lineItems]: every ["###"] sets [foundPound] and is
    skipped; the other items are pushed once [foundPound] is set. *)
Fixpoint proMoves (foundPound : bool) (lineItems : list string) : list string :=
  match lineItems with
  | [] => []
  | item :: rest =>
      if String.eqb item "###" then proMoves true rest
      else if foundPound then item :: proMoves foundPound rest
      else proMoves foundPound rest
  end.

(** One ['line'] event with [count] games so far: [None] is the
    [TypeError] of [lineItems[1].substr] on a line of one item; otherwise
    the new count, the game handed to the callback (if any) and whether
    [lineReader.close()] was called.  [maxQuantity] is [None] when it is
    not a number. *)
Definition proLine (maxQuantity : option Z) (count : Z) (line0 : string)
    : option (Z * option ProGame * bool) :=
  let line := trim line0 in
  if (JS.len line =? 0) || bool_decide (charAt line 0 = Some "#"%char)
  then Some (count, None, false)
  else
    let lineItems := splitSpace line in
    let moves := proMoves false lineItems in
    match lineItems !! 1%nat with
    | None => None
    | Some d =>
        let g := MkProGame (parseIntItem (lineItems !! 0%nat))
                   (substr d 0 4, substr d 5 2, substr d 8 2)
                   (lineItems !! 2%nat)
                   (parseIntItem (lineItems !! 3%nat))
                   (parseIntItem (lineItems !! 4%nat))
                   (parseIntItem (lineItems !! 5%nat))
                   moves "pro" in
        let count1 := count + 1 in
        Some (count1, Some g,
              match maxQuantity with
              | Some q => bool_decide (q ≤ count1)
              | None => false
              end)
    end.

(** The lines of one chunk: all of them are emitted, also after
    [close()], until one throws.  The result is the games handed to the
    callback, the count after the chunk, whether [close()] was called and
    whether the chunk ended in the [TypeError]. *)
Fixpoint proChunk (maxQuantity : option Z) (count : Z) (lines : list string)
    : list ProGame * Z * bool * bool :=
  match lines with
  | [] => ([], count, false, false)
  | l :: ls =>
      match proLine maxQuantity count l with
      | None => ([], count, false, true)
      | Some (count', g, closed) =>
          let '(gs, count'', closed', threw) := proChunk maxQuantity count' ls in
          (option_list g ++ gs, count'', closed || closed', threw)
      end
  end.

(** The games handed to the callback, in order, and whether the run ended
    in the [TypeError]; once [close()] was called no further chunk is
    read. *)
Fixpoint proLines (maxQuantity : option Z) (count : Z) (chunks : list (list string))
    : list ProGame * bool :=
  match chunks with
  | [] => ([], false)
  | c :: cs =>
      let '(gs, count', closed, threw) := proChunk maxQuantity count c in
      if threw || closed then (gs, threw)
      else let '(gs', threw') := proLines maxQuantity count' cs in
           (gs ++ gs', threw')
  end.

Definition forEachProGame (chunks : list (list string)) (maxQuantity : option Z)
    : list ProGame * bool :=
  proLines maxQuantity 0 chunks.

(** Mappings from algebraic notation to internal names for pieces. *)
Definition PIECES : list (ascii * string) :=
  [("a"%char, "pawn"); ("b"%char, "pawn"); ("c"%char, "pawn");
   ("d"%char, "pawn"); ("e"%char, "pawn"); ("f"%char, "pawn");
   ("g"%char, "pawn"); ("h"%char, "pawn");
   ("N"%char, "knight"); ("R"%char, "rook"); ("O"%char, "castling");
   ("B"%char, "bishop"); ("K"%char, "king"); ("Q"%char, "queen")].

(** [piece in PIECES ? PIECES[piece] : absent] *)
Fixpoint lookupPiece (t : list (ascii * string)) (piece : ascii) : option string :=
  match t with
  | [] => None
  | (k, v) :: t' => if Ascii.eqb k piece then Some v else lookupPiece t' piece
  end.

(** *** class Counts *)

Record Counts : Type := MkCounts {
  name : string;
  data : list nat
}.

Definition newCounts (name : string) : Counts := MkCounts name [].

(** [count(n)]: the loop pushes zeros until index [n] exists, that is
    [n + 1 - data.length] of them; then [data[n]++]. *)
Definition count (n : nat) (c : Counts) : Counts :=
  MkCounts (name c)
    (alter S n (data c ++ replicate (S n - length (data c)) 0%nat)).

Definition get (n : Z) (c : Counts) : nat :=
  if (n <=? 0) || (n >=? Z.of_nat (length (data c))) then 0%nat
  else nth (Z.to_nat n) (data c) 0%nat.

Definition lastNonzeroIndex (c : Counts) : Z := Z.of_nat (length (data c)) - 1.

(** *** class DataAggregator *)

Definition ELO_SUFFIXES : list string := [""; "_low"; "_mid"; "_hi"].

(** [this.counts] is a [Map]: the table of its entries, and the order in
    which its keys were first set, which is the order it iterates in. *)
Record DataAggregator : Type := MkAgg {
  counts : gmap string Counts;
  keyOrder : list string;
  totalGamesCounted : nat
}.

(** [this.counts.set(name, new Counts(name))] *)
Definition addCounts (name : string) (st : gmap string Counts * list string)
    : gmap string Counts * list string :=
  (<[name := newCounts name]> st.1,
   if bool_decide (is_Some (st.1 !! name)) then st.2 else st.2 ++ [name]).

(** [String.fromCharCode(97 + r) + (c + 1)] *)
Definition getRowColName (r c : nat) : string :=
  String (ascii_of_nat (97 + r)) (numToString (Some (Z.of_nat c + 1))).

Definition constructorSuffix (st : gmap string Counts * list string)
    (suffix : string) : gmap string Counts * list string :=
  let st1 := addCounts ("total" +:+ suffix) st in
  let st2 :=
    foldl (λ acc kv,
             let v := kv.2 in
             if bool_decide (is_Some (acc.1 !! (v +:+ suffix))) then acc
             else addCounts (v +:+ suffix) acc)
          st1 PIECES in
  let st3 :=
    foldl (λ acc r,
             foldl (λ acc' c,
                      addCounts ("pos_" +:+ getRowColName r c +:+ suffix) acc')
                   acc (seq 0 8))
          st2 (seq 0 8) in
  addCounts ("pos_castle" +:+ suffix) st3.

Definition constructor : DataAggregator :=
  let st := foldl constructorSuffix (∅, []) ELO_SUFFIXES in
  MkAgg st.1 st.2 0.

(** The [while] loop of [getMoveRC]: from [last], step left over the
    characters [+#?!], never below index 0. *)
Definition isAnnotation (c : option ascii) : bool :=
  match c with
  | Some c => bool_decide (indexOf "+#?!" c ≠ -1)
  | None => false
  end.

Fixpoint skipAnnotations (move : string) (last : nat) : nat :=
  match last with
  | O => O
  | S l =>
      if isAnnotation (charAt move (Z.of_nat last))
      then skipAnnotations move l
      else last
  end.

Definition getMoveRC (move : string) : option string :=
  let last0 := JS.len move - 1 in
  let last1 := if 0 <? last0
               then Z.of_nat (skipAnnotations move (Z.to_nat last0))
               else last0 in
  let last2 :=
    if (3 <=? last1) && bool_decide (charAt move (last1 - 1) = Some "="%char)
    then last1 - 2 else last1 in
  if last2 - 1 <? 0 then None
  else
    let rowcol := substr move (last2 - 1) 2 in
    match charAt rowcol 0, charAt rowcol 1 with
    | Some f, Some r =>
        if inRange "a" "h" f && inRange "1" "8" r then Some rowcol else None
    | _, _ => None
    end.

(** [elo < 1225] is false when [elo] is [NaN]. *)
Definition ltNum (elo : option Z) (bound : Z) : bool :=
  match elo with
  | Some e => e <? bound
  | None => false
  end.

Definition eloSuffix (elo : option Z) : string :=
  if ltNum elo 1225 then "_low"
  else if ltNum elo 1875 then "_mid"
  else "_hi".

(** [this.counts.get(key).count(i)]; a missing key makes [get] return
    [undefined] and the call throw. *)
Definition countAt (key : string) (i : nat) (m : gmap string Counts)
    : option (gmap string Counts) :=
  c ← m !! key; Some (<[key := count i c]> m).

(** The rating of the colour that made the move. *)
Definition moveElo (game : Game) (move : string) : option Z :=
  match charAt move 0 with
  | Some "W"%char => welo game
  | Some "B"%char => belo game
  | _ => None
  end.

(** The body of the loop of [processGame] for the move at index [i]. *)
Definition processMove (game : Game) (i : nat) (move : string)
    (m : gmap string Counts) : option (gmap string Counts) :=
  m1 ← countAt "total" i m;
  let elo := moveElo game move in
  let suffix := eloSuffix elo in
  let where_ := default "castle" (getMoveRC move) in
  m2 ← (if bool_decide (is_Some elo)
        then
          ma ← countAt ("total" +:+ suffix) i m1;
          mb ← countAt ("pos_" +:+ where_) i ma;
          countAt ("pos_" +:+ where_ +:+ suffix) i mb
        else Some m1);
  let dotLocation := indexOf move "." in
  if bool_decide (dotLocation ≠ -1)
  then
    match charAt move (dotLocation + 1) ≫= lookupPiece PIECES with
    | Some prefix =>
        m3 ← countAt prefix i m2;
        if bool_decide (is_Some elo)
        then countAt (prefix +:+ suffix) i m3
        else Some m3
    | None => Some m2
    end
  else Some m2.

Fixpoint processMoves (game : Game) (i : nat) (ms : list string)
    (m : gmap string Counts) : option (gmap string Counts) :=
  match ms with
  | [] => Some m
  | move :: ms' =>
      m' ← processMove game i move m;
      processMoves game (S i) ms' m'
  end.

(** [processGame]; the progress message every 100000 games is output
    only and is left out. *)
Definition processGame (game : Game) (agg : DataAggregator) : option DataAggregator :=
  m ← processMoves game 0 (moves game) (counts agg);
  Some (MkAgg m (keyOrder agg) (S (totalGamesCounted agg))).

(** The callback chain of the main program: every game of the stream, in
    order, through [processGame]. *)
Fixpoint processGames (games : list Game) (agg : DataAggregator)
    : option DataAggregator :=
  match games with
  | [] => Some agg
  | g :: gs => agg' ← processGame g agg; processGames gs agg'
  end.

(** [x.asPlainObject()], as the front end reads it back from [data.js]. *)
Definition asPlainObject (c : Counts) : string * list Z :=
  (name c, Z.of_nat <$> data c).

(** The array [eventsByMove] of [getJson]: the values of [this.counts] in
    the order of the [Map]. *)
Definition getJson (agg : DataAggregator) : list (string * list Z) :=
  omap (λ k, asPlainObject <$> counts agg !! k) (keyOrder agg).

End Etl.

(** ** [visualization.js]: the data model under the charts *)

Module Vis.
Import JS.

(** *** class Counts *)

Record Counts : Type := MkCounts {
  name : string;
  data : list Z
}.

(** [new Counts(name, data)] keeps a copy of [data]. *)
Definition newCounts (name : string) (data : list Z) : Counts := MkCounts name data.

(** [count(n, times)]: zeros are pushed until index [n] exists, then
    [data[n] += times]. *)
Definition count (n : nat) (times : Z) (c : Counts) : Counts :=
  MkCounts (name c)
    (alter (λ v, v + times) n (data c ++ replicate (S n - length (data c)) 0)).

Definition get (n : Z) (c : Counts) : Z :=
  if (n <=? 0) || (n >=? Z.of_nat (length (data c))) then 0
  else nth (Z.to_nat n) (data c) 0.

Definition lastNonzeroIndex (c : Counts) : Z := Z.of_nat (length (data c)) - 1.

(** Every integer from [lo] to [hi], not inclusive of [hi]. *)
Definition range (lo hi : Z) : list Z :=
  (λ k, lo + Z.of_nat k) <$> seq 0 (Z.to_nat (hi - lo)).

Definition getDomain (low high : Z) (c : Counts) : list (Z * Z) :=
  (λ x, (x, get x c)) <$> range low high.

(** The loop of the ["aggregated"] branch:
    [for (i = 0; i < data.length - 1; i += 2) newData.push(data[i] + data[i + 1])].
    It runs at most [data.length] times. *)
Fixpoint aggregatedLoop (fuel i : nat) (data newData : list Z) : list Z :=
  match fuel with
  | O => newData
  | S fuel' =>
      if Z.of_nat i <? Z.of_nat (length data) - 1
      then aggregatedLoop fuel' (i + 2) data
             (newData ++ [nth i data 0 + nth (i + 1) data 0])
      else newData
  end.

(** [arr.filter((v, i) => f(v, i))] *)
Fixpoint filterFrom {A : Type} (f : A → nat → bool) (i : nat) (l : list A) : list A :=
  match l with
  | [] => []
  | v :: l' => if f v i then v :: filterFrom f (S i) l' else filterFrom f (S i) l'
  end.

Definition aggregateBy (aggregation : string) (c : Counts) : Counts :=
  if String.eqb aggregation "aggregated"
  then MkCounts (name c) (aggregatedLoop (length (data c)) 0 (data c) [])
  else if String.eqb aggregation "white"
  then MkCounts (name c) (filterFrom (λ _ i, Nat.eqb (i mod 2) 0) 0 (data c))
  else if String.eqb aggregation "black"
  then MkCounts (name c) (filterFrom (λ _ i, Nat.eqb (i mod 2) 1) 0 (data c))
  else c.

(** *** The loaded blob [DATA.eventsByMove]: name and series, in order *)

Definition Datum : Type := string * list Z.

(** [findData]: the first entry named [key]; [None] is the thrown
    [Error]. *)
Fixpoint findData (key aggregation : string) (DATA : list Datum) : option Counts :=
  match DATA with
  | [] => None
  | d :: rest =>
      if String.eqb d.1 key
      then Some (aggregateBy aggregation (newCounts d.1 d.2))
      else findData key aggregation rest
  end.

(** [data.forEach((n, idx) => result.count(idx, n))] *)
Fixpoint countEach (idx : nat) (data : list Z) (result : Counts) : Counts :=
  match data with
  | [] => result
  | n :: data' => countEach (S idx) data' (count idx n result)
  end.

Definition sumGeneral (name : string) (predicate : string → bool)
    (aggregation : string) (DATA : list Datum) : Counts :=
  let result :=
    foldl (λ result datum,
             if predicate datum.1 then countEach 0 datum.2 result else result)
          (newCounts name []) DATA in
  aggregateBy aggregation result.

(** [new RegExp(`^pos_[a-h]([1-8])${suffix}$`)]; the suffixes in use
    ([ELO_SUFFIXES]) have no character that is special in a pattern. *)
Definition rowPattern (suffix : string) : regex :=
  Seqs [Bol; Str "pos_"; Cls (inRange "a" "h"); Grp 1 (Cls (inRange "1" "8"));
        Str suffix; Eol].

(** [new RegExp(`^pos_([a-h])[1-8]${suffix}$`)] *)
Definition colPattern (suffix : string) : regex :=
  Seqs [Bol; Str "pos_"; Grp 1 (Cls (inRange "a" "h")); Cls (inRange "1" "8");
        Str suffix; Eol].

(** [match !== null && match[1] === x] *)
Definition groupIs (r : regex) (x key : string) : bool :=
  match exec r key with
  | Some m => bool_decide (group 1 (m_caps m) = Some x)
  | None => false
  end.

Definition sumRow (row suffix aggregation : string) (DATA : list Datum) : Counts :=
  sumGeneral ("row_" +:+ row) (groupIs (rowPattern suffix) row) aggregation DATA.

Definition sumCol (col suffix aggregation : string) (DATA : list Datum) : Counts :=
  sumGeneral ("col_" +:+ col) (groupIs (colPattern suffix) col) aggregation DATA.

(** [String.fromCharCode(97 + Math.floor(i / 8), 49 + (i % 8))] *)
Definition rowColString (i : nat) : string :=
  String (ascii_of_nat (97 + i / 8))
    (String (ascii_of_nat (49 + i mod 8)) EmptyString).

Record Named : Type := MkNamed {
  n_name : string;
  n_data : Counts
}.

Record DataSources : Type := MkSources {
  pieceType : list Named;
  rows : list Named;
  columns : list Named;
  destination : list Named
}.

(** [processDataSources]; it throws as soon as one [findData] does. *)
Definition processDataSources (suffix aggregation : string) (DATA : list Datum)
    : option DataSources :=
  pieces ← mapM (λ p : string * string,
                   MkNamed p.1 <$> findData (p.2 +:+ suffix) aggregation DATA)
                [("King", "king"); ("Pawn", "pawn"); ("Rook", "rook");
                 ("Castling", "castling"); ("Queen", "queen");
                 ("Bishop", "bishop"); ("Knight", "knight")];
  let rs := (λ r, MkNamed r (sumRow r suffix aggregation DATA))
              <$> splitChars "12345678" in
  let cs := (λ c, MkNamed c (sumCol c suffix aggregation DATA))
              <$> splitChars "abcdefgh" in
  ds ← mapM (λ i, MkNamed (rowColString i)
                    <$> findData ("pos_" +:+ rowColString i +:+ suffix)
                          aggregation DATA)
            (seq 0 64);
  Some (MkSources pieces rs cs ds).

(** One cell of the heat map: [x] and [y] are [d.name[0]] and [d.name[1]]
    ([None] is [undefined]). *)
Record HeatCell : Type := MkHeatCell {
  h_x : option ascii;
  h_y : option ascii;
  h_value : Z
}.

(** [App.extractHeatmapData], from [this.data] and [this.currentTime]; the
    time is an integer (or, from the slider, the decimal string of one,
    which the comparisons and the index of [get] read as that integer). *)
Definition extractHeatmapData (data : DataSources) (currentTime : Z) : list HeatCell :=
  (λ d, MkHeatCell (charAt (n_name d) 0) (charAt (n_name d) 1)
          (get currentTime (n_data d)))
  <$> destination data.

End Vis.

(** ** Vocabulary of the properties

    Names for what the statements below talk about: the value a counter
    stores at a ply, the counters one move increments, the standard key
    space, and the list views of the aggregation modes. *)

(** The three modes, read off the list two entries at a time. *)
Fixpoint pairSums (d : list Z) : list Z :=
  match d with
  | x :: y :: r => x + y :: pairSums r
  | _ => []
  end.

Fixpoint evens (d : list Z) : list Z :=
  match d with
  | x :: y :: r => x :: evens r
  | _ => d
  end.

Fixpoint odds (d : list Z) : list Z :=
  match d with
  | x :: y :: r => y :: odds r
  | _ => []
  end.

Section EtlVocabulary.
Import JS Etl.

(** The value the counter named [key] stores at ply [p]: [data[p]], read
    as 0 beyond the end of the series (and for a name not in the table). *)
Definition seriesAt (m : gmap string Counts) (key : string) (p : nat) : nat :=
  match m !! key with
  | Some c => nth p (data c) 0%nat
  | None => 0%nat
  end.

(** [count(i)] on each of [keys], in order. *)
Fixpoint countAll (keys : list string) (i : nat) (m : gmap string Counts)
    : option (gmap string Counts) :=
  match keys with
  | [] => Some m
  | k :: ks => m' ← countAt k i m; countAll ks i m'
  end.

(** The category [processGame] finds for the piece that moved: the
    character after the first dot, through [PIECES]. *)
Definition movePiece (move : string) : option string :=
  let dotLocation := indexOf move "." in
  if bool_decide (dotLocation ≠ -1)
  then charAt move (dotLocation + 1) ≫= lookupPiece PIECES
  else None.

(** [where] in [processGame]. *)
Definition moveWhere (move : string) : string := default "castle" (getMoveRC move).

(** The counters the body of the loop of [processGame] increments for one
    move, in the order of the calls. *)
Definition moveKeys (game : Game) (move : string) : list string :=
  let elo := moveElo game move in
  let suffix := eloSuffix elo in
  let known := bool_decide (is_Some elo) in
  ["total"]
  ++ (if known
      then ["total" +:+ suffix; "pos_" +:+ moveWhere move;
            "pos_" +:+ moveWhere move +:+ suffix]
      else [])
  ++ match movePiece move with
     | Some prefix => prefix :: (if known then [prefix +:+ suffix] else [])
     | None => []
     end.

(** How many times [key] occurs in [keys]. *)
Fixpoint occ (key : string) (keys : list string) : nat :=
  match keys with
  | [] => 0%nat
  | k :: ks => ((if String.eqb k key then 1 else 0) + occ key ks)%nat
  end.

(** What the move of [game] at ply [p], if there is one, adds to [key]. *)
Definition contribAt (game : Game) (key : string) (p : nat) : nat :=
  match moves game !! p with
  | Some move => occ key (moveKeys game move)
  | None => 0%nat
  end.

Fixpoint sumOver {A : Type} (f : A → nat) (l : list A) : nat :=
  match l with
  | [] => 0%nat
  | x :: l' => (f x + sumOver f l')%nat
  end.

(** The key space the constructor creates. *)
Definition files : list ascii := ["a"; "b"; "c"; "d"; "e"; "f"; "g"; "h"]%char.
Definition ranks : list ascii := ["1"; "2"; "3"; "4"; "5"; "6"; "7"; "8"]%char.
Definition cells : list string :=
  f ← files; r ← ranks; [String f (String r EmptyString)].
Definition pieceNames : list string :=
  ["pawn"; "knight"; "rook"; "bishop"; "queen"; "king"; "castling"].
Definition tiers : list string := ["_low"; "_mid"; "_hi"].
Definition baseNames : list string :=
  "total" :: pieceNames ++ (String.append "pos_" <$> (cells ++ ["castle"])).
Definition stdKeys : list string :=
  base ← baseNames; suffix ← ELO_SUFFIXES; [base +:+ suffix].

(** A table that has every key of the key space, each with the counter
    of that name. *)
Definition wf (m : gmap string Counts) : Prop :=
  Forall (λ k, name <$> m !! k = Some k) stdKeys.

(** The claims' words for the tier of a move: the colour is the first
    character of the token and the rating is that colour's; a rating is
    low below 1225, mid from there below 1875, high from 1875 on. *)
Definition moverRating (game : Game) (move : string) : option Z :=
  match move with
  | String "W" _ => welo game
  | String "B" _ => belo game
  | _ => None
  end.

Definition tierOf (rating : Z) : string :=
  if rating <? 1225 then "_low" else if rating <? 1875 then "_mid" else "_hi".

(** 1 when the move of [game] at ply [p] was made by a player whose own
    rating is known and lies in [tier]. *)
Definition moverInTier (tier : string) (p : nat) (game : Game) : nat :=
  match moves game !! p with
  | Some move =>
      match moverRating game move with
      | Some rating => if String.eqb (tierOf rating) tier then 1%nat else 0%nat
      | None => 0%nat
      end
  | None => 0%nat
  end.

(** 1 when [game] has a move at ply [p] that [PIECES] does not classify. *)
Definition unclassifiedAt (p : nat) (game : Game) : nat :=
  match moves game !! p with
  | Some move => match movePiece move with Some _ => 0%nat | None => 1%nat end
  | None => 0%nat
  end.

(** A series that is empty or ends in a positive entry. *)
Definition lastPositive (d : list nat) : Prop :=
  match last d with
  | Some v => (0 < v)%nat
  | None => True
  end.

(** The counter stored under [k] carries that name and ends in a positive
    entry. *)
Definition counterOk (k : string) (c : Counts) : Prop :=
  name c = k ∧ lastPositive (data c).

(** The destinations [where] ranges over: the 64 cells and ["castle"]. *)
Definition dests : list string := cells ++ ["castle"].

(** [moveKeys] as a function of what it reads from the move: whether the
    rating is known, its suffix, the destination and the piece. *)
Definition keysFor (known : bool) (suffix where_ : string) (piece : option string)
    : list string :=
  ["total"]
  ++ (if known
      then ["total" +:+ suffix; "pos_" +:+ where_; "pos_" +:+ where_ +:+ suffix]
      else [])
  ++ match piece with
     | Some prefix => prefix :: (if known then [prefix +:+ suffix] else [])
     | None => []
     end.

(** 1 when [game] has a move at ply [p]. *)
Definition reaches (p : nat) (game : Game) : nat :=
  if decide (p < length (moves game))%nat then 1%nat else 0%nat.

(** Every character of [s] is one of [+#?!]. *)
Fixpoint allAnnotations (s : string) : bool :=
  match s with
  | EmptyString => true
  | String c s' => isAnnotation (Some c) && allAnnotations s'
  end.

(** Some character of [s] is whitespace. *)
Fixpoint hasSpace (s : string) : bool :=
  match s with
  | EmptyString => false
  | String c s' => isSpace c || hasSpace s'
  end.

(** A line the pro reader skips: blank, or a comment. *)
Definition proSkipped (line : string) : bool :=
  (JS.len (trim line) =? 0) || bool_decide (charAt (trim line) 0 = Some "#"%char).

End EtlVocabulary.

(** ** Inputs of the scenarios *)

Section Scenarios.
Import JS Etl.

(** A metadata line of the rated format: [[Name "value"]]. *)
Definition tag (name value : string) : string :=
  "[" +:+ name +:+ " " +:+ String dquote value +:+ String dquote "]".

(** The constant [QUANTITY] of the main program. *)
Definition QUANTITY : Z := 100000000.

Definition ratedMetadata : list string :=
  [tag "Event" "Rated Blitz game";
   tag "Date" "2021.09.01";
   tag "Result" "1-0";
   tag "WhiteElo" "1200";
   tag "BlackElo" "2000";
   ""].

(** The movetext of the scenario, and the same moves with a comment after
    each of them, as the rated dumps have them. *)
Definition scenarioMovetext : string := "1. e4 {comment} 1... e5 2. Nf3 Nc6".

Definition annotatedMovetext : string :=
  "1. e4 {comment} 1... e5 {comment} 2. Nf3 {comment} 2... Nc6 {comment}".

(** A rated-format game whose white player has no rating ([?]). *)
Definition unratedInput : list string :=
  [tag "Event" "Casual Blitz game";
   tag "Date" "2021.09.01";
   tag "Result" "1-0";
   tag "WhiteElo" "?";
   tag "BlackElo" "1500";
   "";
   "1. e4 { [%clk 0:05:00] } 1... e5 { [%clk 0:05:00] } 1-0"].

(** A pro-format game: white is rated 1500 and castles on ply 6. *)
Definition castlingGame : Game :=
  MkGame (Some 1) (Some 2000, Some 3, Some 14) "1-0" (Some 1500) (Some 1400)
    (Some 7)
    ["W1.e4"; "B1.e5"; "W2.Nf3"; "B2.Nc6"; "W3.Bc4"; "B3.Bc5"; "W4.O-O"]
    "pro".

(** The categories that are chess pieces. *)
Definition chessPieces : list string :=
  ["pawn"; "knight"; "rook"; "bishop"; "queen"; "king"].

(** Two lines of the pro format: a comment and a game of two moves. *)
Definition proInput : list string :=
  ["# index date result welo belo len ### moves";
   "1 2000.03.14 1-0 2851 2748 2 ### W1.e4 B1.e5"].

End Scenarios.

Section FrontEndVocabulary.
Import JS Vis.

Fixpoint sumZ {A : Type} (f : A → Z) (l : list A) : Z :=
  match l with
  | [] => 0
  | x :: l' => f x + sumZ f l'
  end.

(** [s] without its prefix [lit], when it has that prefix. *)
Fixpoint stripPrefix (lit s : string) : option string :=
  match lit, s with
  | EmptyString, _ => Some s
  | String a lit', String b s' => if Ascii.eqb b a then stripPrefix lit' s' else None
  | String _ _, EmptyString => None
  end.

(** The file and rank of a key of the form [pos_<file><rank><suffix>]. *)
Definition cellOf (suffix key : string) : option (ascii * ascii) :=
  match stripPrefix "pos_" key with
  | Some (String f (String r rest)) =>
      if inRange "a" "h" f && inRange "1" "8" r
         && bool_decide (stripPrefix suffix rest = Some EmptyString)
      then Some (f, r)
      else None
  | _ => None
  end.

(** The keys [processDataSources] looks up for the 64 destinations. *)
Definition cellKeys (suffix : string) : list string :=
  (λ i, "pos_" +:+ rowColString i +:+ suffix) <$> seq 0 64.

(** The index of the raw series that entry [i] of a view shows, for the
    modes that pick entries. *)
Definition pick (aggregation : string) (i : nat) : nat :=
  if String.eqb aggregation "white" then (2 * i)%nat
  else if String.eqb aggregation "black" then (2 * i + 1)%nat
  else i.

(** Entry [i] of the view [findData] returns for [key]; 0 when no entry of
    the blob has that name. *)
Definition foundAt (key aggregation : string) (DATA : list Datum) (i : nat) : Z :=
  match findData key aggregation DATA with
  | Some c => nth i (data c) 0
  | None => 0
  end.

(** The step of the loop of [sumGeneral]. *)
Definition sumStep (predicate : string → bool) (result : Counts) (datum : Datum)
    : Counts :=
  if predicate datum.1 then countEach 0 datum.2 result else result.

(** A blob with the untiered piece and destination series, each of them
    [[1; length of its name]]. *)
Definition sampleBlob : list Datum :=
  (λ k, (k, [1; Z.of_nat (String.length k)])) <$> (pieceNames ++ cellKeys "").

(** A rated game of four plies: e4 e5 Nf3 Nf6. *)
Definition fourPlyGame : Etl.Game :=
  Etl.MkGame (Some 0) (Some 2021, Some 9, Some 1) "1-0" (Some 1500) (Some 1500)
    (Some 4) ["W1.e4"; "B1.e5"; "W2.Nf3"; "B2.Nf6"] "lichess".

(** For the blob the aggregator writes after [games]: the sums, over the
    eight row series, the eight column series and the 64 destination
    series of [processDataSources], of what [f] reads from a series. *)
Definition coverageSums (suffix aggregation : string) (games : list Etl.Game)
    (f : Counts → Z) : option (Z * Z * Z) :=
  match Etl.processGames games Etl.constructor with
  | Some agg =>
      match processDataSources suffix aggregation (Etl.getJson agg) with
      | Some ds =>
          Some (sumZ (λ x, f (n_data x)) (rows ds),
                sumZ (λ x, f (n_data x)) (columns ds),
                sumZ (λ x, f (n_data x)) (destination ds))
      | None => None
      end
  | None => None
  end.

(** A blob with two destination series of different lengths. *)
Definition raggedBlob : list Datum :=
  [("pos_a1", [1]); ("pos_a2", [1; 1])].

End FrontEndVocabulary.
(** * Properties *)

(** ** Bounds-safe lookup *)

(** C3. For a counter of either class and an integer [n] below zero or at
    or beyond the current length of the series, [get n] is [0].  ([get] is
    a total function: it has no path that throws.) *)
Theorem get_out_of_range (n : Z) (ce : Etl.Counts) (cv : Vis.Counts) :
  n < 0 ∨ Z.of_nat (length (Etl.data ce)) ≤ n →
  n < 0 ∨ Z.of_nat (length (Vis.data cv)) ≤ n →
  Etl.get n ce = 0%nat ∧ Vis.get n cv = 0.
Proof.
  intros He Hv. unfold Etl.get, Vis.get. split.
  - destruct He as [Hneg | Hbig].
    + replace (n <=? 0) with true by (symmetry; apply Z.leb_le; lia). done.
    + replace (n >=? Z.of_nat (length (Etl.data ce))) with true
        by (symmetry; apply Z.geb_le; lia).
      by rewrite orb_true_r.
  - destruct Hv as [Hneg | Hbig].
    + replace (n <=? 0) with true by (symmetry; apply Z.leb_le; lia). done.
    + replace (n >=? Z.of_nat (length (Vis.data cv))) with true
        by (symmetry; apply Z.geb_le; lia).
      by rewrite orb_true_r.
Qed.

Lemma get_out_of_range_witness :
  Etl.get 5 (Etl.MkCounts "total" [1; 2]%nat) = 0%nat ∧
  Vis.get 5 (Vis.MkCounts "total" [3; 4; 5]) = 0.
Proof. apply get_out_of_range; right; simpl; lia. Defined.

(** C4. [get 0] is [0] for every counter of either class, also right
    after [count] at index 0 has stored a positive value there: the count
    of ply 0 cannot be read through [get]. *)
Theorem get_zero_always_zero (ce : Etl.Counts) (cv : Vis.Counts) (times : Z) :
  Etl.get 0 ce = 0%nat ∧
  Vis.get 0 cv = 0 ∧
  (0 < nth 0 (Etl.data (Etl.count 0 ce)) 0)%nat ∧
  Etl.get 0 (Etl.count 0 ce) = 0%nat ∧
  nth 0 (Vis.data (Vis.count 0 times cv)) 0 = nth 0 (Vis.data cv) 0 + times ∧
  Vis.get 0 (Vis.count 0 times cv) = 0.
Proof.
  repeat split; try done.
  - destruct ce as [nm [|x d]]; simpl; lia.
  - destruct cv as [nm [|x d]]; simpl; lia.
Qed.

(** ** Aggregation by colour *)

Section Aggregation.
Import Vis.

(** Induction two elements at a time. *)
Lemma list_pair_ind (P : list Z → Prop) :
  P [] → (∀ x, P [x]) → (∀ x y r, P r → P (x :: y :: r)) → ∀ d, P d.
Proof.
  intros H0 H1 H2.
  assert (Hboth : ∀ d, P d ∧ ∀ x, P (x :: d)).
  { induction d as [|y r [IH1 IH2]]; split; auto. }
  intros d. apply Hboth.
Qed.

Lemma drop_two_nth (d : list Z) (i : nat) :
  (i + 1 < length d)%nat →
  drop i d = nth i d 0 :: nth (i + 1) d 0 :: drop (i + 2) d.
Proof.
  revert i. induction d as [|x d IH]; intros i Hi; simpl in Hi; [lia|].
  destruct i as [|i].
  - destruct d as [|y d]; simpl in *; [lia|]. by rewrite drop_0.
  - simpl. apply IH. lia.
Qed.

(** The loop has fuel to spare, and computes the pairwise sums. *)
Lemma aggregatedLoop_pairSums (fuel i : nat) (d acc : list Z) :
  (length d ≤ i + 2 * fuel + 1)%nat →
  aggregatedLoop fuel i d acc = acc ++ pairSums (drop i d).
Proof.
  revert i acc. induction fuel as [|fuel IH]; intros i acc Hfuel; simpl.
  - assert (Hshort : (length (drop i d) ≤ 1)%nat) by (rewrite length_drop; lia).
    destruct (drop i d) as [|x [|y r]]; simpl in *; [by rewrite app_nil_r..|lia].
  - destruct (Z.ltb_spec (Z.of_nat i) (Z.of_nat (length d) - 1)) as [Hlt | Hge].
    + rewrite IH by lia.
      rewrite (drop_two_nth d i) by lia. simpl. by rewrite <- app_assoc.
    + assert (Hshort : (length (drop i d) ≤ 1)%nat) by (rewrite length_drop; lia).
      destruct (drop i d) as [|x [|y r]]; simpl in *; [by rewrite app_nil_r..|lia].
Qed.

Lemma double_mod2 (k : nat) : ((2 * k) mod 2 = 0 ∧ S (2 * k) mod 2 = 1)%nat.
Proof.
  split.
  - rewrite Nat.mul_comm. apply Nat.Div0.mod_mul.
  - replace (S (2 * k)) with (1 + k * 2)%nat by lia.
    by rewrite Nat.Div0.mod_add.
Qed.

Lemma filterFrom_even_odd (d : list Z) (k : nat) :
  filterFrom (λ _ i, Nat.eqb (i mod 2) 0) (2 * k) d = evens d ∧
  filterFrom (λ _ i, Nat.eqb (i mod 2) 1) (2 * k) d = odds d.
Proof.
  revert k. induction d as [| x | x y r IH] using list_pair_ind; intros k.
  - done.
  - destruct (double_mod2 k) as [H0 _].
    cbn [filterFrom evens odds]. by rewrite H0.
  - destruct (IH (S k)) as [IHe IHo].
    replace (2 * S k)%nat with (S (S (2 * k))) in IHe, IHo by lia.
    destruct (double_mod2 k) as [H0 H1].
    cbn [filterFrom evens odds]. rewrite H0, H1, IHe, IHo. done.
Qed.

Lemma halves_spec (d : list Z) :
  length (pairSums d) = (length d / 2)%nat ∧
  length (odds d) = (length d / 2)%nat ∧
  (Nat.Even (length d) → length (evens d) = (length d / 2)%nat) ∧
  ∀ i, (i < length d / 2)%nat →
    nth i (pairSums d) 0 = nth (2 * i) d 0 + nth (2 * i + 1) d 0 ∧
    nth i (evens d) 0 = nth (2 * i) d 0 ∧
    nth i (odds d) 0 = nth (2 * i + 1) d 0.
Proof.
  induction d as [| x | x y r (IHp & IHo & IHe & IHn)] using list_pair_ind.
  - repeat split; try done; simpl in *; lia.
  - repeat split; try done; simpl in *; try lia.
    intros [m Hm]. lia.
  - assert (Hlen : (length (x :: y :: r) / 2 = S (length r / 2))%nat).
    { simpl length. replace (S (S (length r))) with (1 * 2 + length r)%nat by lia.
      rewrite Nat.div_add_l by lia. lia. }
    rewrite Hlen. cbn [pairSums evens odds length].
    split; [by rewrite IHp|]. split; [by rewrite IHo|]. split.
    + intros [m Hm]. f_equal. apply IHe.
      exists (m - 1)%nat. cbn [length] in Hm. lia.
    + intros [|i] Hi; [done|].
      destruct (IHn i ltac:(lia)) as (Hp & He & Ho).
      replace (2 * S i)%nat with (S (S (2 * i))) by lia.
      replace (S (S (2 * i)) + 1)%nat with (S (S (2 * i + 1))) by lia.
      simpl. auto.
Qed.

End Aggregation.

(** C8. On a series of even length [L], ["aggregated"] gives a series of
    length [L/2] whose [i]-th entry is the sum of entries [2i] and [2i+1];
    ["white"] gives the [L/2] entries at the even indices and ["black"]
    the [L/2] entries at the odd indices. *)
Theorem aggregateBy_even_length (c : Vis.Counts) :
  Nat.Even (length (Vis.data c)) →
  let L := length (Vis.data c) in
  let agg := Vis.data (Vis.aggregateBy "aggregated" c) in
  let white := Vis.data (Vis.aggregateBy "white" c) in
  let black := Vis.data (Vis.aggregateBy "black" c) in
  length agg = (L / 2)%nat ∧ length white = (L / 2)%nat ∧
  length black = (L / 2)%nat ∧
  ∀ i : nat, (i < L / 2)%nat →
    agg !! i = Some (nth (2 * i) (Vis.data c) 0 + nth (2 * i + 1) (Vis.data c) 0) ∧
    white !! i = Some (nth (2 * i) (Vis.data c) 0) ∧
    black !! i = Some (nth (2 * i + 1) (Vis.data c) 0).
Proof.
  intros Heven L agg white black.
  destruct (halves_spec (Vis.data c)) as (Hp & Ho & He & Hn).
  destruct (filterFrom_even_odd (Vis.data c) 0) as [Hfe Hfo].
  assert (Hagg : agg = pairSums (Vis.data c)).
  { subst agg. unfold Vis.aggregateBy. simpl.
    rewrite aggregatedLoop_pairSums by lia. by rewrite drop_0. }
  assert (Hwhite : white = evens (Vis.data c)) by (subst white; apply Hfe).
  assert (Hblack : black = odds (Vis.data c)) by (subst black; apply Hfo).
  rewrite Hagg, Hwhite, Hblack. fold L in Hp, Ho, He, Hn.
  split; [done|]. split; [by apply He|]. split; [done|].
  intros i Hi. destruct (Hn i Hi) as (H1 & H2 & H3).
  rewrite <- H1, <- H2, <- H3.
  assert (Hlook : ∀ l : list Z, length l = (L / 2)%nat → l !! i = Some (nth i l 0)).
  { intros l Hl. destruct (nth_lookup_or_length l i 0); [done | lia]. }
  auto.
Qed.

Lemma aggregateBy_even_length_witness :
  let c := Vis.MkCounts "pawn" [5; 7; 1; 2] in
  Vis.data (Vis.aggregateBy "aggregated" c) !! 1%nat = Some 3 ∧
  Vis.data (Vis.aggregateBy "white" c) !! 1%nat = Some 1 ∧
  Vis.data (Vis.aggregateBy "black" c) !! 1%nat = Some 2.
Proof.
  intros c.
  assert (Heven : Nat.Even (length (Vis.data c))) by (exists 2%nat; reflexivity).
  destruct (aggregateBy_even_length c Heven) as (_ & _ & _ & Hi).
  apply (Hi 1%nat). simpl. lia.
Defined.

(** ** The aggregator *)

Section Aggregator.
Import JS Etl.

(** *** One call of [count] *)

Lemma count_nth (i p : nat) (c : Counts) :
  nth p (data (count i c)) 0%nat
  = (nth p (data c) 0 + (if decide (p = i) then 1 else 0))%nat.
Proof.
  unfold count. cbn [data].
  rewrite !nth_lookup, list_lookup_alter.
  case_decide as Hpi.
  - subst p. destruct (decide (i < length (data c))%nat) as [Hlt | Hge].
    + rewrite decide_True by done. rewrite lookup_app_l by done.
      destruct (lookup_lt_is_Some_2 _ _ Hlt) as [x ->]. simpl. lia.
    + rewrite decide_True by done. rewrite lookup_app_r by lia.
      rewrite (lookup_ge_None_2 (data c)) by lia.
      rewrite lookup_replicate_2 by lia. simpl. lia.
  - rewrite decide_False by done.
    destruct (decide (p < length (data c))%nat) as [Hlt | Hge].
    + rewrite lookup_app_l by done. lia.
    + rewrite lookup_app_r by lia. rewrite (lookup_ge_None_2 (data c)) by lia.
      destruct (decide (p - length (data c) < S i - length (data c))%nat).
      * rewrite lookup_replicate_2 by lia. simpl. lia.
      * rewrite lookup_ge_None_2 by (rewrite length_replicate; lia). simpl. lia.
Qed.

Lemma seriesAt_countAt key i m m' k p :
  countAt key i m = Some m' →
  seriesAt m' k p
  = (seriesAt m k p + if decide (p = i) then occ k [key] else 0)%nat.
Proof.
  unfold countAt, seriesAt. intros H.
  destruct (m !! key) as [c|] eqn:Hc; [|done]. simpl in H. injection H as <-.
  cbn [occ]. destruct (String.eqb_spec key k) as [->|Hne].
  - rewrite lookup_insert_eq, Hc, count_nth. destruct (decide (p = i)); lia.
  - rewrite lookup_insert_ne by done. destruct (decide (p = i)); lia.
Qed.

Lemma occ_app k l1 l2 : occ k (l1 ++ l2) = (occ k l1 + occ k l2)%nat.
Proof. induction l1 as [|x l1 IH]; simpl; lia. Qed.

Lemma seriesAt_countAll keys i m m' k p :
  countAll keys i m = Some m' →
  seriesAt m' k p = (seriesAt m k p + if decide (p = i) then occ k keys else 0)%nat.
Proof.
  revert m. induction keys as [|key keys IH]; intros m H; simpl in H.
  - injection H as <-. simpl. destruct (decide (p = i)); lia.
  - destruct (countAt key i m) as [m1|] eqn:H1; [|done]. simpl in H.
    rewrite (IH _ H), (seriesAt_countAt _ _ _ _ k p H1).
    change (key :: keys) with ([key] ++ keys). rewrite occ_app.
    destruct (decide (p = i)); lia.
Qed.

(** *** The loop body is [countAll] on [moveKeys] *)

Lemma processMove_countAll game i move m :
  processMove game i move m = countAll (moveKeys game move) i m.
Proof.
  unfold processMove, moveKeys, movePiece, moveWhere.
  cbn [countAll app].
  destruct (countAt "total" i m) as [m1|]; [|done]. cbn [mbind option_bind].
  destruct (bool_decide (is_Some (moveElo game move))).
  - cbn [countAll app].
    destruct (countAt _ i m1) as [ma|]; [|done]. cbn [mbind option_bind].
    destruct (countAt _ i ma) as [mb|]; [|done]. cbn [mbind option_bind].
    destruct (countAt _ i mb) as [mc|]; [|done]. cbn [mbind option_bind].
    destruct (bool_decide (indexOf move "." ≠ -1)); [|done].
    destruct (charAt move (indexOf move "." + 1) ≫= lookupPiece PIECES) as [v|];
      [|done].
    cbn [countAll]. destruct (countAt v i mc) as [m3|]; [|done].
    cbn [mbind option_bind]. by destruct (countAt _ i m3).
  - cbn [countAll app mbind option_bind].
    destruct (bool_decide (indexOf move "." ≠ -1)); [|done].
    destruct (charAt move (indexOf move "." + 1) ≫= lookupPiece PIECES) as [v|];
      [|done].
    cbn [countAll]. by destruct (countAt v i m1).
Qed.

Lemma seriesAt_processMoves game ms i m m' k p :
  processMoves game i ms m = Some m' →
  seriesAt m' k p =
    (seriesAt m k p +
     if decide (i ≤ p)%nat
     then match ms !! (p - i)%nat with
          | Some move => occ k (moveKeys game move)
          | None => 0
          end
     else 0)%nat.
Proof.
  revert i m. induction ms as [|move ms IH]; intros i m H; simpl in H.
  - injection H as <-. rewrite lookup_nil. destruct (decide (i ≤ p)%nat); lia.
  - rewrite processMove_countAll in H.
    destruct (countAll _ i m) as [m1|] eqn:H1; [|done]. simpl in H.
    rewrite (IH _ _ H), (seriesAt_countAll _ _ _ _ k p H1).
    destruct (decide (p = i)) as [->|Hne].
    + rewrite decide_False by lia. rewrite decide_True by lia.
      replace (i - i)%nat with 0%nat by lia. simpl. lia.
    + destruct (decide (S i ≤ p)%nat).
      * rewrite decide_True by lia.
        replace (p - i)%nat with (S (p - S i)) by lia. simpl. lia.
      * destruct (decide (i ≤ p)%nat); lia.
Qed.

Lemma seriesAt_processGame g agg agg' k p :
  processGame g agg = Some agg' →
  seriesAt (counts agg') k p = (seriesAt (counts agg) k p + contribAt g k p)%nat.
Proof.
  unfold processGame. intros H.
  destruct (processMoves g 0 (moves g) (counts agg)) as [m1|] eqn:Hm; [|done].
  simpl in H. injection H as <-. cbn [counts].
  rewrite (seriesAt_processMoves _ _ _ _ _ k p Hm).
  rewrite decide_True by lia. replace (p - 0)%nat with p by lia. done.
Qed.

Lemma seriesAt_processGames games agg agg' k p :
  processGames games agg = Some agg' →
  seriesAt (counts agg') k p =
    (seriesAt (counts agg) k p + sumOver (λ g, contribAt g k p) games)%nat.
Proof.
  revert agg. induction games as [|g gs IH]; intros agg H; simpl in H.
  - injection H as <-. simpl. lia.
  - destruct (processGame g agg) as [agg1|] eqn:H1; [|done]. simpl in H.
    rewrite (IH _ H), (seriesAt_processGame _ _ _ k p H1). simpl. lia.
Qed.

(** *** The key space *)

Lemma inRange_files f : inRange "a" "h" f = true → f ∈ files.
Proof.
  destruct f as [[] [] [] [] [] [] [] []]; intros H; vm_compute in H;
    try discriminate H; unfold files; repeat constructor.
Qed.

Lemma inRange_ranks r : inRange "1" "8" r = true → r ∈ ranks.
Proof.
  destruct r as [[] [] [] [] [] [] [] []]; intros H; vm_compute in H;
    try discriminate H; unfold ranks; repeat constructor.
Qed.

Lemma substring_length_le n k s : (String.length (String.substring n k s) ≤ k)%nat.
Proof.
  revert n k. induction s as [|c s IH]; intros [|n] [|k]; simpl; try lia.
  - specialize (IH 0%nat k). lia.
  - apply (IH n 0%nat).
  - apply (IH n (S k)).
Qed.

Lemma cells_intro f r : f ∈ files → r ∈ ranks → String f (String r EmptyString) ∈ cells.
Proof.
  intros Hf Hr. unfold cells. apply list_elem_of_bind. exists f. split; [|done].
  apply list_elem_of_bind. exists r. split; [|done]. by apply list_elem_of_singleton.
Qed.

(** A destination that [getMoveRC] returns is one of the 64 cells. *)
Lemma getMoveRC_cell move w : getMoveRC move = Some w → w ∈ cells.
Proof.
  unfold getMoveRC. intros H.
  repeat case_match; try discriminate H; simplify_eq.
  all: match goal with
       | |- substr ?m ?a 2 ∈ _ =>
           pose proof (substring_length_le (Z.to_nat a) 2 m) as Hlen;
           fold (substr m a 2) in Hlen;
           destruct (substr m a 2) as [|f' [|r' [|x rest]]];
           simpl in *; try discriminate; try lia
       end.
  all: repeat match goal with
       | H : charAt (String _ _) _ = Some _ |- _ => cbv in H; simplify_eq
       end.
  all: match goal with
       | H : inRange _ _ ?f && inRange _ _ ?r = true |- _ =>
           apply andb_true_iff in H as [Hf%inRange_files Hr%inRange_ranks]
       end.
  all: by apply cells_intro.
Qed.

Lemma lookupPiece_names c v : lookupPiece PIECES c = Some v → v ∈ pieceNames.
Proof.
  unfold PIECES, lookupPiece, pieceNames. intros H.
  repeat case_match; simplify_eq; rewrite !elem_of_cons; tauto.
Qed.

Lemma movePiece_names move v : movePiece move = Some v → v ∈ pieceNames.
Proof.
  unfold movePiece. case_bool_decide; [|done].
  destruct (charAt _ _) as [c|]; [|done]. apply lookupPiece_names.
Qed.

Lemma eloSuffix_tiers elo : eloSuffix elo ∈ tiers.
Proof.
  unfold eloSuffix, tiers. repeat case_match; rewrite !elem_of_cons; tauto.
Qed.

Lemma tiers_suffixes s : s ∈ tiers → s ∈ ELO_SUFFIXES.
Proof. unfold tiers, ELO_SUFFIXES. rewrite !elem_of_cons. tauto. Qed.

Lemma stdKeys_intro base suffix :
  base ∈ baseNames → suffix ∈ ELO_SUFFIXES → base +:+ suffix ∈ stdKeys.
Proof.
  intros Hb Hs. unfold stdKeys. apply list_elem_of_bind. exists base. split; [|done].
  apply list_elem_of_bind. exists suffix. split; [|done].
  by apply list_elem_of_singleton.
Qed.

Lemma append_empty (s : string) : s +:+ "" = s.
Proof.
  induction s as [|c s IH]; [done|].
  change (String c (s +:+ "") = String c s). by rewrite IH.
Qed.

Lemma append_assoc (a b c : string) : (a +:+ b) +:+ c = a +:+ b +:+ c.
Proof.
  induction a as [|x a IH]; [done|].
  change (String x ((a +:+ b) +:+ c) = String x (a +:+ b +:+ c)). by rewrite IH.
Qed.

Lemma moveWhere_cases move : moveWhere move ∈ cells ∨ moveWhere move = "castle".
Proof.
  unfold moveWhere. destruct (getMoveRC move) as [w|] eqn:H; simpl.
  - left. by eapply getMoveRC_cell.
  - by right.
Qed.

Lemma moveWhere_base move : "pos_" +:+ moveWhere move ∈ baseNames.
Proof.
  unfold baseNames. right. apply elem_of_app. right.
  apply list_elem_of_fmap_2. apply elem_of_app.
  destruct (moveWhere_cases move) as [H | ->]; [by left | right].
  by apply list_elem_of_singleton.
Qed.

Lemma moveKeys_std game move k : k ∈ moveKeys game move → k ∈ stdKeys.
Proof.
  assert (Hempty : "" ∈ ELO_SUFFIXES) by (unfold ELO_SUFFIXES; by left).
  assert (Hplain : ∀ b, b ∈ baseNames → b ∈ stdKeys).
  { intros b Hb. rewrite <- (append_empty b). by apply stdKeys_intro. }
  assert (Hpiece : ∀ v, v ∈ pieceNames → v ∈ baseNames).
  { intros v Hv. unfold baseNames. right. apply elem_of_app. by left. }
  pose proof (tiers_suffixes _ (eloSuffix_tiers (moveElo game move))) as Hsuf.
  unfold moveKeys. rewrite !elem_of_app, list_elem_of_singleton.
  intros [-> | [Hin | Hin]].
  - apply Hplain. by left.
  - case_bool_decide; [|by apply elem_of_nil in Hin].
    rewrite !elem_of_cons in Hin. destruct Hin as [-> | [-> | [-> | Hin]]].
    + apply stdKeys_intro; [by left | done].
    + apply Hplain, moveWhere_base.
    + rewrite <- append_assoc. apply stdKeys_intro; [apply moveWhere_base | done].
    + by apply elem_of_nil in Hin.
  - destruct (movePiece move) as [v|] eqn:Hv; [|by apply elem_of_nil in Hin].
    apply movePiece_names in Hv.
    apply elem_of_cons in Hin as [-> | Hin]; [by apply Hplain, Hpiece|].
    case_bool_decide; [|by apply elem_of_nil in Hin].
    apply list_elem_of_singleton in Hin as ->.
    apply stdKeys_intro; auto.
Qed.

(** *** The constructor's table, and why no call of [count] throws *)

Lemma wf_constructor : wf (counts constructor).
Proof.
  assert (H : bool_decide (Forall (λ k, name <$> counts constructor !! k = Some k)
                             stdKeys) = true)
    by (vm_compute; reflexivity).
  by apply bool_decide_eq_true_1 in H.
Qed.

Lemma constructor_empty_series k p : seriesAt (counts constructor) k p = 0%nat.
Proof.
  assert (H : bool_decide (map_Forall (λ _ c, data c = []) (counts constructor)) = true)
    by (vm_compute; reflexivity).
  apply bool_decide_eq_true_1 in H as Hall.
  unfold seriesAt. destruct (counts constructor !! k) as [c|] eqn:Hc; [|done].
  rewrite (Hall k c Hc). by destruct p.
Qed.

Lemma countAt_wf k i m :
  wf m → k ∈ stdKeys → ∃ m', countAt k i m = Some m' ∧ wf m'.
Proof.
  unfold wf. intros Hwf Hk. rewrite Forall_forall in Hwf.
  destruct (fmap_Some_1 _ _ _ (Hwf k Hk)) as (c & Hc & Hname).
  unfold countAt. rewrite Hc. simpl.
  eexists. split; [done|]. apply Forall_forall. intros k' Hk'.
  destruct (decide (k = k')) as [<-|Hne].
  - rewrite lookup_insert_eq. simpl. by rewrite Hname.
  - rewrite lookup_insert_ne by done. auto.
Qed.

Lemma countAll_wf keys i m :
  wf m → (∀ k, k ∈ keys → k ∈ stdKeys) → ∃ m', countAll keys i m = Some m' ∧ wf m'.
Proof.
  revert m. induction keys as [|k keys IH]; intros m Hwf Hkeys; simpl.
  - eauto.
  - destruct (countAt_wf k i m Hwf) as (m1 & -> & Hwf1); [apply Hkeys; by left|].
    simpl. apply IH; [done|]. intros k' Hk'. apply Hkeys. by right.
Qed.

Lemma processMoves_wf game ms i m :
  wf m → ∃ m', processMoves game i ms m = Some m' ∧ wf m'.
Proof.
  revert i m. induction ms as [|move ms IH]; intros i m Hwf; simpl.
  - eauto.
  - rewrite processMove_countAll.
    destruct (countAll_wf (moveKeys game move) i m Hwf) as (m1 & -> & Hwf1).
    { apply moveKeys_std. }
    simpl. by apply IH.
Qed.

Lemma processGame_wf game agg :
  wf (counts agg) → ∃ agg', processGame game agg = Some agg' ∧ wf (counts agg').
Proof.
  intros Hwf. unfold processGame.
  destruct (processMoves_wf game (moves game) 0 _ Hwf) as (m1 & -> & Hwf1).
  simpl. eauto.
Qed.

Lemma processGames_wf games agg :
  wf (counts agg) → ∃ agg', processGames games agg = Some agg' ∧ wf (counts agg').
Proof.
  revert agg. induction games as [|g gs IH]; intros agg Hwf; simpl.
  - eauto.
  - destruct (processGame_wf g agg Hwf) as (agg1 & -> & Hwf1). simpl. by apply IH.
Qed.

(** Every run of the aggregator ends, and each stored value is the number
    of moves that touched it. *)
Lemma processGames_constructor games :
  ∃ agg, processGames games constructor = Some agg ∧
    ∀ k p, seriesAt (counts agg) k p = sumOver (λ g, contribAt g k p) games.
Proof.
  destruct (processGames_wf games constructor wf_constructor) as (agg & Hagg & _).
  exists agg. split; [done|]. intros k p.
  by rewrite (seriesAt_processGames _ _ _ k p Hagg), constructor_empty_series.
Qed.

(** *** Sums over the games *)

Lemma sumOver_add {A : Type} (f g : A → nat) (l : list A) :
  sumOver (λ x, f x + g x)%nat l = (sumOver f l + sumOver g l)%nat.
Proof. induction l as [|x l IH]; simpl; lia. Qed.

Lemma sumOver_ext {A : Type} (f g : A → nat) (l : list A) :
  (∀ x, x ∈ l → f x = g x) → sumOver f l = sumOver g l.
Proof.
  induction l as [|x l IH]; intros H; simpl; [done|].
  rewrite (H x) by (by left). rewrite IH; [done|]. intros y Hy. apply H. by right.
Qed.

Lemma sumOver_le {A : Type} (f g : A → nat) (l : list A) :
  (∀ x, x ∈ l → (f x ≤ g x)%nat) → (sumOver f l ≤ sumOver g l)%nat.
Proof.
  induction l as [|x l IH]; intros H; simpl; [done|].
  assert (f x ≤ g x)%nat by (apply H; by left).
  assert (sumOver f l ≤ sumOver g l)%nat by (apply IH; intros y Hy; apply H; by right).
  lia.
Qed.

Lemma sumOver_zero {A : Type} (f : A → nat) (l : list A) :
  sumOver f l = 0%nat ↔ ∀ x, x ∈ l → f x = 0%nat.
Proof.
  induction l as [|x l IH]; simpl.
  - split; [|done]. intros _ y Hy. by apply elem_of_nil in Hy.
  - split.
    + intros H y [-> | Hy]%elem_of_cons; [lia|]. apply IH; [lia | done].
    + intros H. assert (f x = 0%nat) by (apply H; by left).
      assert (sumOver f l = 0%nat) by (apply IH; intros y Hy; apply H; by right).
      lia.
Qed.

Lemma sumOver_swap {A B : Type} (f : A → B → nat) (la : list A) (lb : list B) :
  sumOver (λ a, sumOver (f a) lb) la = sumOver (λ b, sumOver (λ a, f a b) la) lb.
Proof.
  induction la as [|a la IH]; simpl.
  - induction lb as [|b lb IHb]; simpl; [done | by rewrite <- IHb].
  - by rewrite IH, sumOver_add.
Qed.

(** *** What one move adds to the counters the claims name *)

(** The cases of a move: its piece (one of seven names, or none), its
    mover's rating (one of three tiers, or unknown); the destination stays
    a variable, and the count of a key in [moveKeys] is then computed. *)
Ltac move_cases game move :=
  unfold contribAt, unclassifiedAt, moverInTier, moveKeys;
  let Hv := fresh "Hv" in
  let v := fresh "v" in
  pose proof (movePiece_names move) as Hv;
  destruct (movePiece move) as [v|];
  [ specialize (Hv v eq_refl); unfold pieceNames in Hv;
    rewrite !elem_of_cons, elem_of_nil in Hv;
    destruct Hv as [-> | [-> | [-> | [-> | [-> | [-> | [-> | []]]]]]]]
  | clear Hv ];
  let e := fresh "e" in
  (destruct (moveElo game move) as [e|];
   [ unfold eloSuffix, tierOf, ltNum; cbn beta iota;
     destruct (e <? 1225); [|destruct (e <? 1875)] | ]);
  generalize (moveWhere move); intros ?w;
  try (vm_compute; reflexivity).

Lemma occ_total game move : occ "total" (moveKeys game move) = 1%nat.
Proof. move_cases game move. Qed.

Lemma occ_pieces game move :
  sumOver (λ n, occ n (moveKeys game move)) pieceNames
  = match movePiece move with Some _ => 1%nat | None => 0%nat end.
Proof. move_cases game move. Qed.

Lemma moveElo_moverRating game move : moveElo game move = moverRating game move.
Proof.
  unfold moveElo, moverRating. destruct move as [|c s]; [done|].
  change (charAt (String c s) 0) with (Some c).
  destruct c as [[] [] [] [] [] [] [] []]; reflexivity.
Qed.

Lemma occ_total_tier game move tier :
  tier ∈ tiers →
  occ ("total" +:+ tier) (moveKeys game move)
  = match moverRating game move with
    | Some rating => if String.eqb (tierOf rating) tier then 1%nat else 0%nat
    | None => 0%nat
    end.
Proof.
  unfold tiers. rewrite !elem_of_cons, elem_of_nil.
  rewrite <- moveElo_moverRating.
  intros [-> | [-> | [-> | []]]]; move_cases game move.
Qed.

(** *** Totals against piece categories and tiers *)

Lemma total_split (games : list Game) (p : nat) :
  sumOver (λ g, contribAt g "total" p) games
  = (sumOver (λ n, sumOver (λ g, contribAt g n p) games) pieceNames
     + sumOver (unclassifiedAt p) games)%nat.
Proof.
  rewrite (sumOver_swap (λ n g, contribAt g n p)), <- sumOver_add.
  apply sumOver_ext. intros g _. unfold contribAt, unclassifiedAt.
  destruct (moves g !! p) as [move|].
  - rewrite occ_total, occ_pieces. by destruct (movePiece move).
  - vm_compute. reflexivity.
Qed.

(** C5. After any sequence of games, at every ply the value stored by
    ["total"] is at least the sum of the values stored by the seven
    piece-category counters, and the two are equal exactly when every move
    made at that ply, in every game processed, was classifiable. *)
Theorem total_bounds_piece_counters (games : list Game) :
  ∃ agg, processGames games constructor = Some agg ∧
    ∀ p : nat,
      let total := seriesAt (counts agg) "total" p in
      let pieces := sumOver (λ n, seriesAt (counts agg) n p) pieceNames in
      (pieces ≤ total)%nat ∧
      (total = pieces ↔
       ∀ g move, g ∈ games → moves g !! p = Some move → is_Some (movePiece move)).
Proof.
  destruct (processGames_constructor games) as (agg & Hagg & Hseries).
  exists agg. split; [done|]. intros p total pieces.
  assert (Hsplit : total = (pieces + sumOver (unclassifiedAt p) games)%nat).
  { subst total pieces. rewrite Hseries, total_split. f_equal.
    apply sumOver_ext. intros n _. by rewrite Hseries. }
  split; [lia|]. split.
  - intros Heq g move Hg Hmove.
    assert (Hzero : sumOver (unclassifiedAt p) games = 0%nat) by lia.
    pose proof (proj1 (sumOver_zero _ _) Hzero g Hg) as Hg0.
    unfold unclassifiedAt in Hg0. rewrite Hmove in Hg0.
    destruct (movePiece move); [eauto | done].
  - intros Hall.
    assert (Hzero : sumOver (unclassifiedAt p) games = 0%nat); [|lia].
    apply sumOver_zero. intros g Hg. unfold unclassifiedAt.
    destruct (moves g !! p) as [move|] eqn:Hmove; [|done].
    by destruct (Hall g move Hg Hmove) as [v ->].
Qed.

(** C6. After any sequence of games, at every ply the three tiered totals
    together do not exceed the untiered total. *)
Theorem tiered_totals_below_total (games : list Game) :
  ∃ agg, processGames games constructor = Some agg ∧
    ∀ p : nat,
      (seriesAt (counts agg) "total_low" p + seriesAt (counts agg) "total_mid" p
       + seriesAt (counts agg) "total_hi" p
       ≤ seriesAt (counts agg) "total" p)%nat.
Proof.
  destruct (processGames_constructor games) as (agg & Hagg & Hseries).
  exists agg. split; [done|]. intros p.
  rewrite !Hseries, <- !sumOver_add. apply sumOver_le. intros g _.
  unfold contribAt. destruct (moves g !! p) as [move|]; [|done].
  rewrite occ_total.
  change "total_low" with ("total" +:+ "_low").
  change "total_mid" with ("total" +:+ "_mid").
  change "total_hi" with ("total" +:+ "_hi").
  rewrite (occ_total_tier g move "_low"), (occ_total_tier g move "_mid"),
    (occ_total_tier g move "_hi") by (unfold tiers; rewrite !elem_of_cons; tauto).
  destruct (moverRating g move) as [rating|]; [|simpl; lia].
  unfold tierOf. destruct (rating <? 1225); [|destruct (rating <? 1875)];
    vm_compute; lia.
Qed.


(** *** Destinations and unknown ratings *)

(** A move whose mover has no known rating adds nothing to any ["pos_"]
    counter: the untiered increment sits under the same test as the
    tiered ones. *)
Lemma unknown_rating_no_destination game move w :
  moveElo game move = None → occ ("pos_" +:+ w) (moveKeys game move) = 0%nat.
Proof.
  intros Helo. unfold moveKeys. rewrite Helo.
  pose proof (movePiece_names move) as Hv.
  destruct (movePiece move) as [v|]; [|vm_compute; reflexivity].
  specialize (Hv v eq_refl). unfold pieceNames in Hv.
  rewrite !elem_of_cons, elem_of_nil in Hv.
  destruct Hv as [-> | [-> | [-> | [-> | [-> | [-> | [-> | []]]]]]]];
    vm_compute; reflexivity.
Qed.

(** C1, at a game the rated reader emits for a white player without a
    rating: white's first move [e4] is counted in ["total"] and in
    ["pawn"] at ply 0, but ["pos_e4"] stays 0 there; black's rated reply
    is counted in ["pos_e5"]. *)
Theorem unrated_move_misses_destination :
  ∃ g agg,
    forEachLichessGame [unratedInput] QUANTITY = [g] ∧
    welo g = None ∧ moves g = ["W1.e4"; "B1.e5"] ∧
    processGames [g] constructor = Some agg ∧
    seriesAt (counts agg) "total" 0 = 1%nat ∧
    seriesAt (counts agg) "pawn" 0 = 1%nat ∧
    seriesAt (counts agg) "pos_e4" 0 = 0%nat ∧
    seriesAt (counts agg) "pos_e5" 1 = 1%nat.
Proof.
  set (g := MkGame (Some 0) (Some 2021, Some 9, Some 1) "1-0" None (Some 1500)
              (Some 2) ["W1.e4"; "B1.e5"] "lichess").
  destruct (processGames_constructor [g]) as (agg & Hagg & Hseries).
  exists g, agg.
  split; [vm_compute; reflexivity|].
  split; [reflexivity|]. split; [reflexivity|]. split; [done|].
  rewrite !Hseries. repeat split; vm_compute; reflexivity.
Qed.

(** *** Castling *)

(** C10, as stated, fails on [castlingGame]: white's castling at ply 6
    does move a piece-category counter, ["castling"]. *)
Lemma castling_moves_a_piece_counter :
  ¬ ∀ agg, processGame castlingGame constructor = Some agg →
      seriesAt (counts agg) "pos_castle" 6 = 1%nat ∧
      seriesAt (counts agg) "pos_castle_mid" 6 = 1%nat ∧
      ∀ n suffix, n ∈ pieceNames → suffix ∈ ELO_SUFFIXES →
        seriesAt (counts agg) (n +:+ suffix) 6
        = seriesAt (counts constructor) (n +:+ suffix) 6.
Proof.
  intros H.
  destruct (processGame_wf castlingGame constructor wf_constructor)
    as (agg & Hagg & _).
  destruct (H agg Hagg) as (_ & _ & Hpieces).
  specialize (Hpieces "castling" "").
  rewrite (seriesAt_processGame _ _ _ _ 6 Hagg) in Hpieces.
  assert (Hc : contribAt castlingGame ("castling" +:+ "") 6 = 1%nat)
    by (vm_compute; reflexivity).
  rewrite Hc in Hpieces.
  assert (In1 : "castling" ∈ pieceNames)
    by (unfold pieceNames; rewrite !elem_of_cons; tauto).
  assert (In2 : "" ∈ ELO_SUFFIXES) by (unfold ELO_SUFFIXES; by left).
  specialize (Hpieces In1 In2). lia.
Qed.

(** C10, amended. After any earlier games, in a game whose white rating
    is 1500, a white token at ply [p] that classifies as castling and has
    no resolvable destination adds 1 at ply [p] to ["pos_castle"],
    ["pos_castle_mid"], ["castling"] and ["castling_mid"], and leaves the
    counters of the six chess pieces, tiered or not, as they were at that
    ply. *)
Theorem castling_move_counters (games : list Game) (agg : DataAggregator)
    (game : Game) (p : nat) (move : string) :
  processGames games constructor = Some agg →
  welo game = Some 1500 →
  moves game !! p = Some move →
  charAt move 0 = Some "W"%char →
  movePiece move = Some "castling" →
  getMoveRC move = None →
  ∃ agg', processGame game agg = Some agg' ∧
    let before k := seriesAt (counts agg) k p in
    let after k := seriesAt (counts agg') k p in
    after "pos_castle" = (before "pos_castle" + 1)%nat ∧
    after "pos_castle_mid" = (before "pos_castle_mid" + 1)%nat ∧
    after "castling" = (before "castling" + 1)%nat ∧
    after "castling_mid" = (before "castling_mid" + 1)%nat ∧
    ∀ n suffix, n ∈ chessPieces → suffix ∈ ELO_SUFFIXES →
      after (n +:+ suffix) = before (n +:+ suffix).
Proof.
  intros Hgames Hwelo Hmove Hwhite Hpiece Hwhere.
  destruct (processGames_wf games constructor wf_constructor) as (agg0 & H0 & Hwf).
  rewrite Hgames in H0. injection H0 as <-.
  destruct (processGame_wf game agg Hwf) as (agg' & Hagg' & _).
  exists agg'. split; [done|]. intros before after.
  assert (Hkeys : moveKeys game move
                  = ["total"; "total_mid"; "pos_castle"; "pos_castle_mid";
                     "castling"; "castling_mid"]).
  { unfold moveKeys, moveElo, moveWhere. rewrite Hwhite, Hwelo, Hpiece, Hwhere.
    vm_compute. reflexivity. }
  assert (Hafter : ∀ k, after k
                        = (before k + occ k ["total"; "total_mid"; "pos_castle";
                                             "pos_castle_mid"; "castling";
                                             "castling_mid"])%nat).
  { intros k. subst before after. cbn beta.
    rewrite (seriesAt_processGame _ _ _ k p Hagg'). unfold contribAt.
    by rewrite Hmove, Hkeys. }
  assert (Hocc : ∀ k v, occ k ["total"; "total_mid"; "pos_castle"; "pos_castle_mid";
                                "castling"; "castling_mid"] = v →
                        after k = (before k + v)%nat).
  { intros k v <-. apply Hafter. }
  do 4 (split; [by apply Hocc|]).
  intros n suffix Hn Hs. rewrite (Hocc _ 0%nat); [lia|].
  unfold chessPieces in Hn. unfold ELO_SUFFIXES in Hs.
  rewrite !elem_of_cons, elem_of_nil in Hn.
  rewrite !elem_of_cons, elem_of_nil in Hs.
  destruct Hn as [-> | [-> | [-> | [-> | [-> | [-> | []]]]]]];
    destruct Hs as [-> | [-> | [-> | [-> | []]]]];
    vm_compute; reflexivity.
Qed.

Lemma castling_move_counters_witness :
  ∃ agg', processGame castlingGame constructor = Some agg' ∧
    seriesAt (counts agg') "pos_castle" 6 = 1%nat ∧
    seriesAt (counts agg') "castling" 6 = 1%nat ∧
    seriesAt (counts agg') "king" 6 = 0%nat.
Proof.
  destruct (castling_move_counters [] constructor castlingGame 6 "W4.O-O")
    as (agg' & Hagg' & Hpos & _ & Hcastling & _ & Hpieces);
    try reflexivity.
  exists agg'. split; [done|].
  rewrite constructor_empty_series in Hpos, Hcastling.
  split; [done|]. split; [done|].
  rewrite <- (constructor_empty_series "king" 6).
  apply (Hpieces "king" "").
  - unfold chessPieces. rewrite !elem_of_cons. tauto.
  - unfold ELO_SUFFIXES. by left.
Defined.
End Aggregator.

(** ** The rated-format reader *)

Section RatedReader.
Import JS Etl.

(** *** Chunks and the cap

    A line raises the index by at most one, and [close()] is called only
    once the index has reached [maxQuantity]. *)
Lemma lichessLine_index (maxQuantity : Z) (st : LichessState) (line : string) :
  let r := lichessLine maxQuantity st line in
  l_index st ≤ l_index r.1.1 ≤ l_index st + 1 ∧
  (r.2 = true → maxQuantity ≤ l_index r.1.1).
Proof.
  unfold lichessLine.
  destruct (exec ELO_PATTERN (trim line)) as [m|]; [destruct (String.eqb _ _)|];
    (destruct (exec MOVE_1_PATTERN (trim line)); [|simpl; split; [lia | done]]);
    (destruct (exec DATE_PATTERN (trim line)); [|destruct (l_date st)]);
    (destruct (exec RESULT_PATTERN (trim line)); [|destruct (l_result st)]);
    try (destruct (2 <=? _)); simpl; (split; [lia|]);
    try done; intros H; by apply bool_decide_eq_true_1 in H.
Qed.

Lemma lichessChunk_below_cap (maxQuantity : Z) (lines : list string) (st : LichessState) :
  l_index st + Z.of_nat (length lines) < maxQuantity →
  (lichessChunk maxQuantity st lines).2 = false ∧
  l_index (lichessChunk maxQuantity st lines).1.2 ≤ l_index st + Z.of_nat (length lines).
Proof.
  revert st. induction lines as [|l ls IH]; intros st Hcap; cbn [lichessChunk].
  - simpl. split; [done | lia].
  - pose proof (lichessLine_index maxQuantity st l) as Hline. cbv zeta in Hline.
    destruct (lichessLine maxQuantity st l) as [[st' g] closed]. simpl in Hline.
    destruct Hline as [Hidx Hclosed].
    cbn [length] in Hcap.
    destruct (IH st' ltac:(lia)) as [IHc IHi].
    destruct (lichessChunk maxQuantity st' ls) as [[gs st''] closed']. simpl in *.
    subst closed'. split; [|lia].
    destruct closed; [|done]. specialize (Hclosed eq_refl). lia.
Qed.

Lemma lichessChunk_app (maxQuantity : Z) (l1 l2 : list string) (st : LichessState) :
  lichessChunk maxQuantity st (l1 ++ l2)
  = let '(gs1, st1, c1) := lichessChunk maxQuantity st l1 in
    let '(gs2, st2, c2) := lichessChunk maxQuantity st1 l2 in
    (gs1 ++ gs2, st2, c1 || c2).
Proof.
  revert st. induction l1 as [|l l1 IH]; intros st; cbn [lichessChunk app].
  - by destruct (lichessChunk maxQuantity st l2) as [[gs2 st2] c2].
  - destruct (lichessLine maxQuantity st l) as [[st' g] closed]. rewrite IH.
    destruct (lichessChunk maxQuantity st' l1) as [[gs1 st1] c1].
    destruct (lichessChunk maxQuantity st1 l2) as [[gs2 st2] c2].
    by rewrite app_assoc, orb_assoc.
Qed.

(** Below the cap it does not matter in which chunks a file is read. *)
Lemma chunking_irrelevant_below_cap (maxQuantity : Z) (chunks : list (list string))
    (st : LichessState) :
  l_index st + Z.of_nat (length (concat chunks)) < maxQuantity →
  lichessLines maxQuantity st chunks = lichessLines maxQuantity st [concat chunks].
Proof.
  revert st. induction chunks as [|c cs IH]; intros st Hcap.
  - done.
  - cbn [concat] in *. rewrite length_app in Hcap. cbn [lichessLines].
    rewrite lichessChunk_app.
    destruct (lichessChunk_below_cap maxQuantity c st ltac:(lia)) as [Hc Hi].
    destruct (lichessChunk maxQuantity st c) as [[gs1 st1] c1]. simpl in Hc, Hi. subst c1.
    rewrite (IH st1) by lia. cbn [lichessLines].
    destruct (lichessChunk maxQuantity st1 (concat cs)) as [[gs2 st2] c2]. simpl.
    destruct c2; by rewrite ?app_nil_r.
Qed.

(** So an input with fewer lines than [QUANTITY] gives the same games in
    whatever chunks it is read as when it is read as one chunk; the
    statements about the scenarios read their input as one chunk. *)
Lemma one_chunk_suffices (chunks : list (list string)) (input : list string) :
  concat chunks = input → Z.of_nat (length input) < QUANTITY →
  forEachLichessGame chunks QUANTITY = forEachLichessGame [input] QUANTITY.
Proof.
  intros <- Hshort. unfold forEachLichessGame.
  apply chunking_irrelevant_below_cap. exact Hshort.
Qed.

(** *** The scenario of the rated format *)

(** [MOVE_PATTERN] asks for a space and an opening brace after the move,
    so on the scenario's movetext it finds white's first move only. *)
Lemma scenario_movetext_parse : lichessMovesParse scenarioMovetext = ["W1.e4"].
Proof. vm_compute. reflexivity. Qed.

(** Whatever metadata came before, that line hands no game to the
    callback. *)
Lemma scenario_line_emits_nothing (maxQuantity : Z) (st : LichessState) :
  (lichessLine maxQuantity st scenarioMovetext).1.2 = None.
Proof. destruct st as [i [d|] [r|] w b]; vm_compute; reflexivity. Qed.

(** C2, as stated, fails: on the scenario's input the reader hands no
    game to the callback, because fewer than two moves were parsed. *)
Lemma scenario_emits_no_game :
  forEachLichessGame [ratedMetadata ++ [scenarioMovetext]] QUANTITY = [] ∧
  ¬ ∃ g, forEachLichessGame [ratedMetadata ++ [scenarioMovetext]] QUANTITY = [g] ∧
         length (moves g) = 4%nat.
Proof.
  assert (Hrun : forEachLichessGame [ratedMetadata ++ [scenarioMovetext]] QUANTITY = [])
    by (vm_compute; reflexivity).
  split; [done|]. rewrite Hrun. by intros (g & Hg & _).
Qed.

(** The same in whatever chunks the scenario's input is read. *)
Lemma scenario_emits_no_game_in_chunks (chunks : list (list string)) :
  concat chunks = ratedMetadata ++ [scenarioMovetext] →
  forEachLichessGame chunks QUANTITY = [].
Proof.
  intros Hlines. unfold forEachLichessGame.
  rewrite chunking_irrelevant_below_cap by (rewrite Hlines; vm_compute; reflexivity).
  rewrite Hlines. vm_compute. reflexivity.
Qed.

(** C2, amended. With a brace comment after each of the four moves, the
    same metadata gives exactly one game record with 4 moves: ply 0 is
    white's with tier low, ply 1 is black's with tier high, ply 2 is a
    white knight to f3 and ply 3 a black knight to c6. *)
Theorem annotated_scenario_emits_one_game :
  ∃ g m0 m1 m2 m3,
    forEachLichessGame [ratedMetadata ++ [annotatedMovetext]] QUANTITY = [g] ∧
    welo g = Some 1200 ∧ belo g = Some 2000 ∧
    moves g = [m0; m1; m2; m3] ∧
    (charAt m0 0 = Some "W"%char ∧ eloSuffix (moveElo g m0) = "_low") ∧
    (charAt m1 0 = Some "B"%char ∧ eloSuffix (moveElo g m1) = "_hi") ∧
    (charAt m2 0 = Some "W"%char ∧ movePiece m2 = Some "knight" ∧
     getMoveRC m2 = Some "f3") ∧
    (charAt m3 0 = Some "B"%char ∧ movePiece m3 = Some "knight" ∧
     getMoveRC m3 = Some "c6").
Proof.
  exists (MkGame (Some 0) (Some 2021, Some 9, Some 1) "1-0" (Some 1200) (Some 2000)
            (Some 4) ["W1.e4"; "B1.e5"; "W2.Nf3"; "B2.Nc6"] "lichess").
  exists "W1.e4", "B1.e5", "W2.Nf3", "B2.Nc6".
  split; [vm_compute; reflexivity|].
  repeat split; vm_compute; reflexivity.
Qed.

End RatedReader.

(** ** Row and column sums *)

Section Coverage.
Import JS Vis.

(** *** The two patterns *)

Lemma rmatch_Str {A : Type} (lit : string) (pos : nat) (s : string) (cs : captures)
    (k : nat → string → captures → option A) :
  rmatch (Str lit) pos s cs k
  = match stripPrefix lit s with
    | Some rest => k (String.length lit + pos)%nat rest cs
    | None => None
    end.
Proof.
  revert pos s. induction lit as [|a lit IH]; intros pos s; [done|].
  cbn [Str rmatch stripPrefix String.length]. destruct s as [|b s]; [done|].
  destruct (Ascii.eqb b a); [|done]. rewrite IH.
  destruct (stripPrefix lit s); [|done]. f_equal. lia.
Qed.

(** A pattern that starts with [^] matches at index 0 or not at all. *)
Lemma execFrom_anchored (r : regex) (pos : nat) (s : string) :
  execFrom (Seq Bol r) (S pos) s = None.
Proof.
  revert pos. induction s as [|c s IH]; intros pos; simpl; [done|]. apply IH.
Qed.

Lemma exec_anchored (r : regex) (s : string) :
  exec (Seq Bol r) s = rmatch r 0 s [] (λ pos' _ cs, Some (MkMatch 0 pos' cs)).
Proof.
  unfold exec. destruct s as [|c s]; cbn [execFrom matchAt rmatch Nat.eqb].
  - by destruct (rmatch r 0 "" [] _).
  - rewrite execFrom_anchored. by destruct (rmatch r 0 (String c s) [] _).
Qed.

Lemma substring_first (n : nat) (c : ascii) (s : string) :
  n = 1%nat → String.substring 0 n (String c s) = String c EmptyString.
Proof. intros ->. simpl. by destruct s. Qed.

Lemma groupIs_rowPattern (suffix row key : string) :
  groupIs (rowPattern suffix) row key
  = match cellOf suffix key with
    | Some (f, r) => bool_decide (String r EmptyString = row)
    | None => false
    end.
Proof.
  unfold groupIs, rowPattern, cellOf. cbn [Seqs]. rewrite exec_anchored.
  cbn [rmatch]. rewrite rmatch_Str.
  destruct (stripPrefix "pos_" key) as [[|f [|r rest]]|]; try done.
  - cbn [rmatch]. by destruct (inRange "a" "h" f).
  - cbn [rmatch]. destruct (inRange "a" "h" f); [|done].
    destruct (inRange "1" "8" r); [|reflexivity]. rewrite rmatch_Str.
    cbn [andb]. destruct (stripPrefix suffix rest) as [[|x rest']|] eqn:Hrest.
    + rewrite (bool_decide_eq_true_2 (Some EmptyString = Some EmptyString)) by done.
      cbn [m_caps group Nat.eqb].
      rewrite substring_first by reflexivity.
      apply bool_decide_ext. split; [by intros [= ->] | by intros ->].
    + by rewrite (bool_decide_eq_false_2 (Some (String x rest') = Some EmptyString)).
    + by rewrite (bool_decide_eq_false_2 (None = Some EmptyString)).
Qed.

Lemma groupIs_colPattern (suffix col key : string) :
  groupIs (colPattern suffix) col key
  = match cellOf suffix key with
    | Some (f, r) => bool_decide (String f EmptyString = col)
    | None => false
    end.
Proof.
  unfold groupIs, colPattern, cellOf. cbn [Seqs]. rewrite exec_anchored.
  cbn [rmatch]. rewrite rmatch_Str.
  destruct (stripPrefix "pos_" key) as [[|f [|r rest]]|]; try done.
  - cbn [rmatch]. by destruct (inRange "a" "h" f).
  - cbn [rmatch]. destruct (inRange "a" "h" f); [|done].
    destruct (inRange "1" "8" r); [|reflexivity]. rewrite rmatch_Str.
    cbn [andb]. destruct (stripPrefix suffix rest) as [[|x rest']|] eqn:Hrest.
    + rewrite (bool_decide_eq_true_2 (Some EmptyString = Some EmptyString)) by done.
      cbn [m_caps group Nat.eqb].
      rewrite substring_first by reflexivity.
      apply bool_decide_ext. split; [by intros [= ->] | by intros ->].
    + by rewrite (bool_decide_eq_false_2 (Some (String x rest') = Some EmptyString)).
    + by rewrite (bool_decide_eq_false_2 (None = Some EmptyString)).
Qed.

(** *** Sums of integers *)

Lemma sumZ_ext {A : Type} (f g : A → Z) (l : list A) :
  (∀ x, x ∈ l → f x = g x) → sumZ f l = sumZ g l.
Proof.
  induction l as [|x l IH]; intros H; simpl; [done|].
  rewrite (H x) by (by left). rewrite IH; [done|]. intros y Hy. apply H. by right.
Qed.

Lemma sumZ_add {A : Type} (f g : A → Z) (l : list A) :
  sumZ (λ x, f x + g x) l = sumZ f l + sumZ g l.
Proof. induction l as [|x l IH]; simpl; lia. Qed.

Lemma sumZ_zero {A : Type} (l : list A) : sumZ (λ _, 0) l = 0.
Proof. induction l as [|x l IH]; simpl; lia. Qed.

Lemma sumZ_scale {A : Type} (f : A → Z) (c : Z) (l : list A) :
  sumZ (λ x, f x * c) l = sumZ f l * c.
Proof. induction l as [|x l IH]; simpl; lia. Qed.

Lemma sumZ_swap {A B : Type} (f : A → B → Z) (la : list A) (lb : list B) :
  sumZ (λ a, sumZ (f a) lb) la = sumZ (λ b, sumZ (λ a, f a b) la) lb.
Proof.
  induction la as [|a la IH]; simpl.
  - by rewrite sumZ_zero.
  - by rewrite IH, sumZ_add.
Qed.

Lemma sumZ_fmap {A B : Type} (f : B → Z) (g : A → B) (l : list A) :
  sumZ f (g <$> l) = sumZ (λ x, f (g x)) l.
Proof. induction l as [|x l IH]; csimpl; [done | by rewrite IH]. Qed.

Lemma sumZ_mapM {A B : Type} (h : B → Z) (g : A → option B) (l : list A) (ys : list B) :
  mapM g l = Some ys → sumZ h ys = sumZ (λ x, from_option h 0 (g x)) l.
Proof.
  revert ys. induction l as [|x l IH]; intros ys H; simpl in H.
  - by injection H as <-.
  - destruct (g x) as [y|] eqn:Hy; [|done]. simpl in H.
    destruct (mapM g l) as [ys'|]; [|done]. simpl in H. injection H as <-.
    simpl. rewrite Hy. simpl. by rewrite (IH ys').
Qed.

(** *** [count], [countEach] and the accumulator of [sumGeneral] *)

Lemma vis_count_nth (i p : nat) (times : Z) (c : Counts) :
  nth p (data (count i times c)) 0
  = nth p (data c) 0 + (if decide (p = i) then times else 0).
Proof.
  unfold count. cbn [data].
  rewrite !nth_lookup, list_lookup_alter.
  case_decide as Hpi.
  - subst p. destruct (decide (i < length (data c))%nat) as [Hlt | Hge].
    + rewrite decide_True by done. rewrite lookup_app_l by done.
      destruct (lookup_lt_is_Some_2 _ _ Hlt) as [x ->]. simpl. lia.
    + rewrite decide_True by done. rewrite lookup_app_r by lia.
      rewrite (lookup_ge_None_2 (data c)) by lia.
      rewrite lookup_replicate_2 by lia. simpl. lia.
  - rewrite decide_False by done.
    destruct (decide (p < length (data c))%nat) as [Hlt | Hge].
    + rewrite lookup_app_l by done. lia.
    + rewrite lookup_app_r by lia. rewrite (lookup_ge_None_2 (data c)) by lia.
      destruct (decide (p - length (data c) < S i - length (data c))%nat).
      * rewrite lookup_replicate_2 by lia. simpl. lia.
      * rewrite lookup_ge_None_2 by (rewrite length_replicate; lia). simpl. lia.
Qed.

Lemma countEach_nth (idx p : nat) (d : list Z) (result : Counts) :
  nth p (data (countEach idx d result)) 0
  = nth p (data result) 0 + (if decide (idx ≤ p)%nat then nth (p - idx) d 0 else 0).
Proof.
  revert idx result. induction d as [|n d IH]; intros idx result; simpl.
  - destruct (decide (idx ≤ p)%nat); [|lia]. destruct (p - idx)%nat; lia.
  - rewrite IH, vis_count_nth.
    destruct (decide (p = idx)) as [->|Hne].
    + rewrite decide_False by lia. rewrite decide_True by lia.
      replace (idx - idx)%nat with 0%nat by lia. lia.
    + destruct (decide (S idx ≤ p)%nat).
      * rewrite decide_True by lia.
        replace (p - idx)%nat with (S (p - S idx)) by lia. lia.
      * rewrite decide_False by lia. lia.
Qed.

Lemma sumStep_nth (predicate : string → bool) (DATA : list Datum) (acc : Counts) (p : nat) :
  nth p (data (foldl (sumStep predicate) acc DATA)) 0
  = nth p (data acc) 0
    + sumZ (λ datum, Z.b2z (predicate datum.1) * nth p datum.2 0) DATA.
Proof.
  revert acc. induction DATA as [|datum DATA IH]; intros acc; cbn [foldl sumZ]; [lia|].
  rewrite IH. unfold sumStep. destruct (predicate datum.1); cbn [Z.b2z].
  - rewrite countEach_nth. rewrite decide_True by lia.
    replace (p - 0)%nat with p by lia. lia.
  - lia.
Qed.

(** *** The views that pick entries *)

Lemma evens_odds_nth (d : list Z) (i : nat) :
  nth i (evens d) 0 = nth (2 * i) d 0 ∧ nth i (odds d) 0 = nth (2 * i + 1) d 0.
Proof.
  revert i. induction d as [| x | x y r IH] using list_pair_ind; intros i.
  - by destruct i.
  - destruct i as [|i]; [done|].
    replace (2 * S i)%nat with (S (S (2 * i))) by lia. simpl. by destruct i.
  - destruct i as [|i]; [done|]. destruct (IH i) as [He Ho].
    replace (2 * S i)%nat with (S (S (2 * i))) by lia.
    replace (S (S (2 * i)) + 1)%nat with (S (S (2 * i + 1))) by lia.
    simpl. auto.
Qed.

Lemma aggregateBy_pick (aggregation : string) (c : Counts) (i : nat) :
  aggregation ≠ "aggregated" →
  nth i (data (aggregateBy aggregation c)) 0 = nth (pick aggregation i) (data c) 0.
Proof.
  intros Hmode. unfold aggregateBy, pick.
  destruct (String.eqb_spec aggregation "aggregated") as [|_]; [done|].
  destruct (filterFrom_even_odd (data c) 0) as [Hfe Hfo].
  change (2 * 0)%nat with 0%nat in Hfe, Hfo.
  destruct (evens_odds_nth (data c) i) as [He Ho].
  destruct (String.eqb aggregation "white"); [cbn [data]; by rewrite Hfe|].
  destruct (String.eqb aggregation "black"); [cbn [data]; by rewrite Hfo|].
  done.
Qed.

Lemma sumGeneral_nth (name : string) (predicate : string → bool)
    (aggregation : string) (DATA : list Datum) (i : nat) :
  aggregation ≠ "aggregated" →
  nth i (data (sumGeneral name predicate aggregation DATA)) 0
  = sumZ (λ datum, Z.b2z (predicate datum.1) * nth (pick aggregation i) datum.2 0) DATA.
Proof.
  intros Hmode. unfold sumGeneral. rewrite aggregateBy_pick by done.
  change (foldl _ (newCounts name []) DATA)
    with (foldl (sumStep predicate) (newCounts name []) DATA).
  rewrite sumStep_nth. simpl. destruct (pick aggregation i); lia.
Qed.

(** *** Keys of cells *)

Lemma stripPrefix_spec (lit s rest : string) :
  stripPrefix lit s = Some rest → s = lit +:+ rest.
Proof.
  revert s. induction lit as [|a lit IH]; intros s H.
  - by injection H as ->.
  - destruct s as [|b s]; [done|]. cbn [stripPrefix] in H.
    destruct (Ascii.eqb_spec b a) as [->|]; [|done].
    change (String a s = String a (lit +:+ rest)). f_equal. by apply IH.
Qed.

Lemma cellOf_Some (suffix key : string) (f r : ascii) :
  cellOf suffix key = Some (f, r) →
  f ∈ files ∧ r ∈ ranks ∧ key = "pos_" +:+ String f (String r suffix).
Proof.
  unfold cellOf. intros H.
  destruct (stripPrefix "pos_" key) as [[|f' [|r' rest]]|] eqn:Hkey; try done.
  destruct (inRange "a" "h" f') eqn:Hf; [|done].
  destruct (inRange "1" "8" r') eqn:Hr; [|done].
  cbn [andb] in H. case_bool_decide as Hrest; [|done]. injection H as -> ->.
  apply stripPrefix_spec in Hkey, Hrest. rewrite append_empty in Hrest. subst rest.
  split; [by apply inRange_files|]. split; [by apply inRange_ranks | done].
Qed.

Lemma cellKeys_cellOf (suffix key : string) :
  suffix ∈ Etl.ELO_SUFFIXES → key ∈ cellKeys suffix ↔ is_Some (cellOf suffix key).
Proof.
  intros Hs. unfold Etl.ELO_SUFFIXES in Hs. rewrite !elem_of_cons, elem_of_nil in Hs.
  split.
  - assert (Hall : Forall (λ k, is_Some (cellOf suffix k)) (cellKeys suffix)).
    { destruct Hs as [-> | [-> | [-> | [-> | []]]]];
        apply (bool_decide_eq_true_1 _); vm_compute; reflexivity. }
    rewrite Forall_forall in Hall. apply Hall.
  - intros [[f r] Hcell]. apply cellOf_Some in Hcell as (Hf & Hr & ->).
    unfold files in Hf. unfold ranks in Hr.
    rewrite !elem_of_cons, elem_of_nil in Hf, Hr.
    destruct Hs as [-> | [-> | [-> | [-> | []]]]];
      destruct Hf as [-> | [-> | [-> | [-> | [-> | [-> | [-> | [-> | []]]]]]]]];
      destruct Hr as [-> | [-> | [-> | [-> | [-> | [-> | [-> | [-> | []]]]]]]]];
      apply (bool_decide_eq_true_1 _); vm_compute; reflexivity.
Qed.

Lemma cellKeys_NoDup (suffix : string) :
  suffix ∈ Etl.ELO_SUFFIXES → NoDup (cellKeys suffix).
Proof.
  intros Hs. unfold Etl.ELO_SUFFIXES in Hs. rewrite !elem_of_cons, elem_of_nil in Hs.
  destruct Hs as [-> | [-> | [-> | [-> | []]]]];
    apply (bool_decide_eq_true_1 _); vm_compute; reflexivity.
Qed.

(** Each key of a cell counts for exactly one row and one column. *)
Lemma one_row_one_column (suffix key : string) :
  sumZ (λ row, Z.b2z (groupIs (rowPattern suffix) row key)) (splitChars "12345678")
  = Z.b2z (bool_decide (is_Some (cellOf suffix key))) ∧
  sumZ (λ col, Z.b2z (groupIs (colPattern suffix) col key)) (splitChars "abcdefgh")
  = Z.b2z (bool_decide (is_Some (cellOf suffix key))).
Proof.
  rewrite (sumZ_ext _ _ _ (λ row _, f_equal Z.b2z (groupIs_rowPattern suffix row key))).
  rewrite (sumZ_ext _ _ _ (λ col _, f_equal Z.b2z (groupIs_colPattern suffix col key))).
  destruct (cellOf suffix key) as [[f r]|] eqn:Hcell.
  - apply cellOf_Some in Hcell as (Hf & Hr & _).
    unfold files in Hf. unfold ranks in Hr.
    rewrite !elem_of_cons, elem_of_nil in Hf, Hr.
    split.
    + destruct Hr as [-> | [-> | [-> | [-> | [-> | [-> | [-> | [-> | []]]]]]]]];
        vm_compute; reflexivity.
    + destruct Hf as [-> | [-> | [-> | [-> | [-> | [-> | [-> | [-> | []]]]]]]]];
        vm_compute; reflexivity.
  - split; vm_compute; reflexivity.
Qed.

(** *** The destinations found by name *)

Lemma findData_absent (key aggregation : string) (DATA : list Datum) :
  key ∉ DATA.*1 → findData key aggregation DATA = None.
Proof.
  induction DATA as [|d DATA IH]; intros Hout; [done|]. cbn [findData].
  rewrite fmap_cons, not_elem_of_cons in Hout. destruct Hout as [Hne Hout].
  destruct (String.eqb_spec d.1 key) as [Heq|_]; [by destruct Hne | by apply IH].
Qed.

Lemma sumZ_one_key (x : string) (a : Z) (g : string → Z) (keys : list string) :
  NoDup keys →
  sumZ (λ k, if String.eqb x k then a else g k) keys
  = sumZ g keys + Z.b2z (bool_decide (x ∈ keys)) * (a - g x).
Proof.
  induction 1 as [|k ks Hk Hks IH]; [done|]. cbn [sumZ]. rewrite IH.
  destruct (String.eqb_spec x k) as [->|Hne].
  - rewrite (bool_decide_eq_false_2 (k ∈ ks)) by done.
    rewrite (bool_decide_eq_true_2 (k ∈ k :: ks)) by (by left). simpl. lia.
  - rewrite (bool_decide_ext (x ∈ k :: ks) (x ∈ ks)); [lia|].
    rewrite elem_of_cons. split; [by intros [?|?] | by right].
Qed.

Lemma foundAt_sum (aggregation : string) (DATA : list Datum) (keys : list string) (i : nat) :
  aggregation ≠ "aggregated" → NoDup DATA.*1 → NoDup keys →
  sumZ (λ k, foundAt k aggregation DATA i) keys
  = sumZ (λ datum, Z.b2z (bool_decide (datum.1 ∈ keys))
                   * nth (pick aggregation i) datum.2 0) DATA.
Proof.
  intros Hmode Hnames Hkeys. induction DATA as [|d DATA IH].
  - unfold foundAt. simpl. apply sumZ_zero.
  - rewrite fmap_cons in Hnames. apply NoDup_cons in Hnames as [Hd Hnames].
    cbn [sumZ]. rewrite <- (IH Hnames).
    transitivity (sumZ (λ k, if String.eqb d.1 k
                             then nth (pick aggregation i) d.2 0
                             else foundAt k aggregation DATA i) keys).
    + apply sumZ_ext. intros k _. unfold foundAt at 1. cbn [findData].
      destruct (String.eqb d.1 k); [|done].
      by rewrite aggregateBy_pick.
    + rewrite sumZ_one_key by done.
      assert (Hnone : foundAt d.1 aggregation DATA i = 0).
      { unfold foundAt. by rewrite findData_absent. }
      rewrite Hnone. lia.
Qed.

Lemma get_nth (n : Z) (c : Counts) :
  get n c = if n <=? 0 then 0 else nth (Z.to_nat n) (data c) 0.
Proof.
  unfold get. destruct (n <=? 0) eqn:Hn; [done|]. cbn [orb].
  destruct (n >=? Z.of_nat (length (data c))) eqn:Hlen; [|done].
  symmetry. apply nth_overflow. apply Z.geb_le in Hlen. lia.
Qed.

(** The three lists of [processDataSources] that the identity is about. *)
Lemma processDataSources_Some (suffix aggregation : string) (DATA : list Datum)
    (ds : DataSources) :
  processDataSources suffix aggregation DATA = Some ds →
  rows ds = (λ r, MkNamed r (sumRow r suffix aggregation DATA))
              <$> splitChars "12345678" ∧
  columns ds = (λ c, MkNamed c (sumCol c suffix aggregation DATA))
                 <$> splitChars "abcdefgh" ∧
  mapM (λ i, MkNamed (rowColString i)
               <$> findData ("pos_" +:+ rowColString i +:+ suffix) aggregation DATA)
       (seq 0 64) = Some (destination ds).
Proof.
  unfold processDataSources. intros H.
  destruct (mapM _ [("King", "king"); _; _; _; _; _; _]) as [pieces|]; [|done].
  cbn [mbind option_bind] in H.
  destruct (mapM _ (seq 0 64)) as [cellsFound|]; [|done].
  cbn [mbind option_bind] in H. by injection H as <-.
Qed.

(** Entry [i] of the row sums, of the column sums and of the 64
    destination series add up to the same number. *)
Lemma coverage_at (DATA : list Datum) (suffix aggregation : string)
    (ds : DataSources) (i : nat) :
  suffix ∈ Etl.ELO_SUFFIXES → aggregation ≠ "aggregated" → NoDup DATA.*1 →
  processDataSources suffix aggregation DATA = Some ds →
  sumZ (λ x, nth i (data (n_data x)) 0) (rows ds)
  = sumZ (λ x, nth i (data (n_data x)) 0) (destination ds) ∧
  sumZ (λ x, nth i (data (n_data x)) 0) (columns ds)
  = sumZ (λ x, nth i (data (n_data x)) 0) (destination ds).
Proof.
  intros Hs Hmode Hnames Hds.
  destruct (processDataSources_Some _ _ _ _ Hds) as (-> & -> & Hdest).
  rewrite (sumZ_mapM _ _ _ _ Hdest), !sumZ_fmap. cbn [n_data].
  assert (Hcells :
    sumZ (λ x, from_option (λ y, nth i (data (n_data y)) 0) 0
                 (MkNamed (rowColString x)
                    <$> findData ("pos_" +:+ rowColString x +:+ suffix) aggregation DATA))
         (seq 0 64)
    = sumZ (λ datum, Z.b2z (bool_decide (is_Some (cellOf suffix datum.1)))
                     * nth (pick aggregation i) datum.2 0) DATA).
  { transitivity (sumZ (λ k, foundAt k aggregation DATA i) (cellKeys suffix)).
    - unfold cellKeys. rewrite sumZ_fmap. apply sumZ_ext. intros x _.
      unfold foundAt. by destruct (findData _ aggregation DATA).
    - rewrite foundAt_sum by auto using cellKeys_NoDup.
      apply sumZ_ext. intros datum _. f_equal. f_equal.
      apply bool_decide_ext. by apply cellKeys_cellOf. }
  rewrite Hcells. unfold sumRow, sumCol.
  split.
  - rewrite (sumZ_ext _ _ _ (λ r _, sumGeneral_nth _ _ _ DATA i Hmode)).
    rewrite sumZ_swap. apply sumZ_ext. intros datum _.
    rewrite sumZ_scale. by destruct (one_row_one_column suffix datum.1) as [-> _].
  - rewrite (sumZ_ext _ _ _ (λ c _, sumGeneral_nth _ _ _ DATA i Hmode)).
    rewrite sumZ_swap. apply sumZ_ext. intros datum _.
    rewrite sumZ_scale. by destruct (one_row_one_column suffix datum.1) as [_ ->].
Qed.

(** C9, amended. For a tier suffix, a blob whose names are distinct and
    a colour mode other than ["aggregated"] (["separate"], where the
    index is the ply, ["white"] or ["black"]), the series
    [processDataSources] derives satisfy at every index: the eight row
    sums add up to the sum of the 64 destination series, and so do the
    eight column sums; both for the stored entries and through [get]. *)
Theorem rows_and_columns_cover_cells (DATA : list Datum) (suffix aggregation : string)
    (ds : DataSources) :
  suffix ∈ Etl.ELO_SUFFIXES → aggregation ≠ "aggregated" → NoDup DATA.*1 →
  processDataSources suffix aggregation DATA = Some ds →
  (∀ p : nat,
     sumZ (λ x, nth p (data (n_data x)) 0) (rows ds)
     = sumZ (λ x, nth p (data (n_data x)) 0) (destination ds) ∧
     sumZ (λ x, nth p (data (n_data x)) 0) (columns ds)
     = sumZ (λ x, nth p (data (n_data x)) 0) (destination ds)) ∧
  (∀ n : Z,
     sumZ (λ x, get n (n_data x)) (rows ds)
     = sumZ (λ x, get n (n_data x)) (destination ds) ∧
     sumZ (λ x, get n (n_data x)) (columns ds)
     = sumZ (λ x, get n (n_data x)) (destination ds)).
Proof.
  intros Hs Hmode Hnames Hds. split.
  - intros p. by apply (coverage_at DATA suffix aggregation).
  - intros n.
    rewrite !(sumZ_ext (λ x, get n (n_data x)) _ _ (λ x _, get_nth n (n_data x))).
    destruct (n <=? 0); [by rewrite !sumZ_zero|].
    by apply (coverage_at DATA suffix aggregation).
Qed.

Lemma rows_and_columns_cover_cells_witness :
  ∃ ds, processDataSources "" "separate" sampleBlob = Some ds ∧
    sumZ (λ x, get 1 (n_data x)) (rows ds)
    = sumZ (λ x, get 1 (n_data x)) (destination ds).
Proof.
  destruct (processDataSources "" "separate" sampleBlob) as [ds|] eqn:Hds;
    [|vm_compute in Hds; discriminate Hds].
  exists ds. split; [done|].
  destruct (rows_and_columns_cover_cells sampleBlob "" "separate" ds)
    as [_ Hget]; [| |  | done | apply (Hget 1)].
  - unfold Etl.ELO_SUFFIXES. by left.
  - discriminate.
  - apply (bool_decide_eq_true_1 _). vm_compute. reflexivity.
Defined.

(** In the ["aggregated"] mode an unpaired last entry is dropped from each
    series on its own, so on series of different lengths the sums of
    whole moves can differ: here the rows give 2 and the columns 3. *)
Lemma aggregated_mode_ragged :
  sumZ (λ r, nth 0 (data (sumRow r "" "aggregated" raggedBlob)) 0)
       (splitChars "12345678") = 2 ∧
  sumZ (λ c, nth 0 (data (sumCol c "" "aggregated" raggedBlob)) 0)
       (splitChars "abcdefgh") = 3.
Proof. split; vm_compute; reflexivity. Qed.

(** *** The blob the aggregator writes *)

Lemma processGames_keyOrder (games : list Etl.Game) (agg agg' : Etl.DataAggregator) :
  Etl.processGames games agg = Some agg' → Etl.keyOrder agg' = Etl.keyOrder agg.
Proof.
  revert agg. induction games as [|g gs IH]; intros agg H; simpl in H.
  - by injection H as <-.
  - destruct (Etl.processGame g agg) as [agg1|] eqn:H1; [|done]. simpl in H.
    rewrite (IH _ H). unfold Etl.processGame in H1.
    destruct (Etl.processMoves g 0 (Etl.moves g) (Etl.counts agg)); [|done].
    simpl in H1. by injection H1 as <-.
Qed.

(** The names in the blob are the keys of the [Map], in its order. *)
Lemma getJson_names (agg : Etl.DataAggregator) :
  wf (Etl.counts agg) → Etl.keyOrder agg = Etl.keyOrder Etl.constructor →
  (Etl.getJson agg).*1 = Etl.keyOrder Etl.constructor.
Proof.
  intros Hwf Horder. unfold Etl.getJson. rewrite Horder. clear Horder.
  assert (Hstd : Forall (λ k, k ∈ stdKeys) (Etl.keyOrder Etl.constructor)).
  { apply (bool_decide_eq_true_1 _). vm_compute. reflexivity. }
  unfold wf in Hwf. rewrite Forall_forall in Hwf.
  induction Hstd as [|k ks Hk Hks IH]; [done|]. cbn [omap list_omap].
  destruct (fmap_Some_1 _ _ _ (Hwf k Hk)) as (c & -> & Hname). cbn.
  by rewrite IH, <- Hname.
Qed.

Lemma findData_present (key aggregation : string) (DATA : list Datum) :
  key ∈ DATA.*1 → is_Some (findData key aggregation DATA).
Proof.
  induction DATA as [|d DATA IH]; intros Hin; [by apply elem_of_nil in Hin|].
  cbn [findData]. destruct (String.eqb_spec d.1 key) as [_|Hne]; [eauto|].
  apply IH. rewrite fmap_cons in Hin. apply elem_of_cons in Hin as [Heq|Hin]; [|done].
  by destruct Hne.
Qed.

(** On the blob of any run of the aggregator the front end finds all its
    series, and outside the ["aggregated"] mode the row and column sums
    cover the destinations. *)
Lemma aggregator_blob_coverage (games : list Etl.Game) (suffix aggregation : string) :
  suffix ∈ Etl.ELO_SUFFIXES → aggregation ≠ "aggregated" →
  ∃ agg ds,
    Etl.processGames games Etl.constructor = Some agg ∧
    processDataSources suffix aggregation (Etl.getJson agg) = Some ds ∧
    ∀ p : nat,
      sumZ (λ x, nth p (data (n_data x)) 0) (rows ds)
      = sumZ (λ x, nth p (data (n_data x)) 0) (destination ds) ∧
      sumZ (λ x, nth p (data (n_data x)) 0) (columns ds)
      = sumZ (λ x, nth p (data (n_data x)) 0) (destination ds).
Proof.
  intros Hs Hmode.
  destruct (processGames_wf games Etl.constructor wf_constructor) as (agg & Hagg & Hwf).
  pose proof (getJson_names agg Hwf (processGames_keyOrder _ _ _ Hagg)) as Hnames.
  assert (Hfacts :
    Forall (λ p : string * string, p.2 +:+ suffix ∈ Etl.keyOrder Etl.constructor)
      [("King", "king"); ("Pawn", "pawn"); ("Rook", "rook");
       ("Castling", "castling"); ("Queen", "queen");
       ("Bishop", "bishop"); ("Knight", "knight")] ∧
    Forall (λ k, k ∈ Etl.keyOrder Etl.constructor) (cellKeys suffix) ∧
    NoDup (Etl.keyOrder Etl.constructor)).
  { unfold Etl.ELO_SUFFIXES in Hs. rewrite !elem_of_cons, elem_of_nil in Hs.
    destruct Hs as [-> | [-> | [-> | [-> | []]]]];
      (split; [|split]); apply (bool_decide_eq_true_1 _); vm_compute; reflexivity. }
  rewrite <- Hnames in Hfacts. clear Hnames. destruct Hfacts as (Hpieces & Hcells & Hnodup).
  assert (Hds : is_Some (processDataSources suffix aggregation (Etl.getJson agg))).
  { unfold processDataSources.
    destruct (mapM _ [("King", "king"); _; _; _; _; _; _]) as [pieces|] eqn:Hp.
    - cbn [mbind option_bind].
      destruct (mapM _ (seq 0 64)) as [found|] eqn:Hc; [by eexists|].
      apply eq_None_not_Some in Hc. destruct Hc. apply mapM_is_Some.
      unfold cellKeys in Hcells. rewrite Forall_fmap in Hcells.
      eapply Forall_impl; [exact Hcells|]. intros i Hi. unfold compose in *.
      destruct (findData_present _ aggregation _ Hi) as [c ->]. by eexists.
    - apply eq_None_not_Some in Hp. destruct Hp. apply mapM_is_Some.
      eapply Forall_impl; [exact Hpieces|]. intros p Hp. unfold compose in *.
      destruct (findData_present _ aggregation _ Hp) as [c ->]. by eexists. }
  destruct Hds as [ds Hds]. exists agg, ds. split; [exact Hagg|]. split; [exact Hds|].
  intros p. by apply (coverage_at (Etl.getJson agg) suffix aggregation).
Qed.

(** *** The ["aggregated"] mode on a blob of the aggregator *)

(** After the one game [fourPlyGame], in the ["aggregated"] mode: the row
    sums, column sums and destination series add up to 1, 2 and 1, at the
    stored entry 0 and through [get 1]. *)
Lemma four_ply_aggregated_sums :
  coverageSums "" "aggregated" [fourPlyGame] (λ c, nth 0 (data c) 0) = Some (1, 2, 1) ∧
  coverageSums "" "aggregated" [fourPlyGame] (get 1) = Some (1, 2, 1).
Proof. split; vm_compute; reflexivity. Qed.

Lemma coverageSums_Some (suffix aggregation : string) (games : list Etl.Game)
    (f : Counts → Z) (r c d : Z) :
  coverageSums suffix aggregation games f = Some (r, c, d) →
  ∃ agg ds,
    Etl.processGames games Etl.constructor = Some agg ∧
    processDataSources suffix aggregation (Etl.getJson agg) = Some ds ∧
    sumZ (λ x, f (n_data x)) (rows ds) = r ∧
    sumZ (λ x, f (n_data x)) (columns ds) = c ∧
    sumZ (λ x, f (n_data x)) (destination ds) = d.
Proof.
  unfold coverageSums. generalize (Etl.processGames games Etl.constructor).
  intros [agg|] H; [|discriminate H].
  destruct (processDataSources suffix aggregation (Etl.getJson agg)) as [ds|] eqn:Hds;
    [|discriminate H].
  injection H as Hr Hc Hd. exists agg, ds. auto.
Qed.

(** C9, as stated, fails in the ["aggregated"] mode, on the blob the
    aggregator writes after the game e4 e5 Nf3 Nf6: the series of e4 and
    of f3 have odd length and lose their last entry when paired, but the
    column sums of e and f do not, so the eight column sums add up to 2
    where the 64 destination series add up to 1. *)
Lemma aggregated_columns_exceed_cells :
  ∃ agg ds,
    Etl.processGames [fourPlyGame] Etl.constructor = Some agg ∧
    processDataSources "" "aggregated" (Etl.getJson agg) = Some ds ∧
    sumZ (λ x, nth 0 (data (n_data x)) 0) (columns ds) = 2 ∧
    sumZ (λ x, nth 0 (data (n_data x)) 0) (destination ds) = 1 ∧
    sumZ (λ x, get 1 (n_data x)) (columns ds) = 2 ∧
    sumZ (λ x, get 1 (n_data x)) (destination ds) = 1 ∧
    ¬ (∀ n : Z, sumZ (λ x, get n (n_data x)) (columns ds)
                = sumZ (λ x, get n (n_data x)) (destination ds)).
Proof.
  destruct four_ply_aggregated_sums as [Hstored Hget].
  apply coverageSums_Some in Hstored as (agg & ds & Hagg & Hds & _ & Hc0 & Hd0).
  apply coverageSums_Some in Hget as (agg' & ds' & Hagg' & Hds' & _ & Hc1 & Hd1).
  rewrite Hagg in Hagg'. injection Hagg' as <-.
  rewrite Hds in Hds'. injection Hds' as <-.
  exists agg, ds. split; [exact Hagg|]. split; [exact Hds|].
  split; [exact Hc0|]. split; [exact Hd0|]. split; [exact Hc1|]. split; [exact Hd1|].
  intros Hall. specialize (Hall 1). rewrite Hc1, Hd1 in Hall. discriminate Hall.
Qed.
End Coverage.

(** * Further properties of the code *)

(** ** One counter *)

Section CounterCalls.
Import JS Etl.

Lemma count_length (n : nat) (c : Counts) :
  length (data (count n c)) = Nat.max (length (data c)) (S n).
Proof. unfold count. cbn [data]. rewrite length_alter, length_app, length_replicate. lia. Qed.

(** X1. One call of [count(n)] keeps the name, makes the series long
    enough to hold index [n] and no longer, and adds one at index [n] and
    nowhere else. *)
Theorem etl_count_effect (n : nat) (c : Counts) :
  name (count n c) = name c ∧
  length (data (count n c)) = Nat.max (length (data c)) (S n) ∧
  lastNonzeroIndex (count n c) = Z.max (lastNonzeroIndex c) (Z.of_nat n) ∧
  ∀ p : nat, nth p (data (count n c)) 0%nat
             = (nth p (data c) 0 + if decide (p = n) then 1 else 0)%nat.
Proof.
  split; [done|]. split; [apply count_length|]. split.
  - unfold lastNonzeroIndex. rewrite count_length. lia.
  - intros p. apply count_nth.
Qed.

(** X2. Two calls of [count] commute. *)
Theorem etl_count_commutes (i j : nat) (c : Counts) :
  count i (count j c) = count j (count i c).
Proof.
  assert (Hdata : data (count i (count j c)) = data (count j (count i c))).
  { apply (nth_ext _ _ 0%nat 0%nat); [rewrite !count_length; lia|]. intros p _.
    rewrite !count_nth. lia. }
  unfold count in *. cbn [name data] in *. by rewrite Hdata.
Qed.

(** X3. Reading back after [count(n)]: [get(m)] has grown by one exactly
    at [m = n > 0]; the count at index 0 is stored but never read. *)
Theorem etl_count_then_get (n : nat) (m : Z) (c : Counts) :
  get m (count n c)
  = (get m c + if decide (m = Z.of_nat n ∧ 0 < m)%Z then 1 else 0)%nat.
Proof.
  unfold get. rewrite count_length.
  destruct (Z.leb_spec m 0) as [Hle | Hpos]; cbn [orb].
  - rewrite decide_False by lia. lia.
  - rewrite count_nth.
    destruct (Z.geb_spec m (Z.of_nat (length (data c)))) as [Hge | Hlt].
    + destruct (Z.geb_spec m (Z.of_nat (Nat.max (length (data c)) (S n)))) as [Hge' | Hlt'].
      * rewrite decide_False by lia. lia.
      * rewrite nth_overflow by lia.
        destruct (decide (Z.to_nat m = n)) as [Heq | Hne].
        -- rewrite decide_True by lia. lia.
        -- rewrite decide_False by lia. lia.
    + destruct (Z.geb_spec m (Z.of_nat (Nat.max (length (data c)) (S n)))) as [Hge' | Hlt']; [lia|].
      destruct (decide (Z.to_nat m = n)) as [Heq | Hne].
      * rewrite decide_True by lia. lia.
      * rewrite decide_False by lia. lia.
Qed.

End CounterCalls.

(** ** Runs of the aggregator *)

Section AggregatorRuns.
Import JS Etl.

Lemma last_nth (d : list nat) :
  last d = if decide (length d = 0)%nat then None else Some (nth (length d - 1) d 0%nat).
Proof.
  rewrite last_lookup. destruct d as [|x d]; [done|].
  rewrite decide_False by (simpl; lia).
  replace (Init.Nat.pred (length (x :: d))) with (length (x :: d) - 1)%nat by lia.
  destruct (nth_lookup_or_length (x :: d) (length (x :: d) - 1) 0%nat) as [->|]; [done|].
  simpl in *. lia.
Qed.

Lemma count_lastPositive (n : nat) (c : Counts) :
  lastPositive (data c) → lastPositive (data (count n c)).
Proof.
  unfold lastPositive. rewrite !last_nth, count_length.
  rewrite (decide_False (P := (Nat.max _ _ = 0)%nat)) by lia.
  rewrite count_nth. intros H.
  destruct (decide (length (data c) = 0)%nat) as [Hz|Hnz].
  - rewrite Hz. replace (Nat.max 0 (S n) - 1)%nat with n by lia.
    rewrite decide_True by done. lia.
  - destruct (decide (Nat.max (length (data c)) (S n) - 1 = n)%nat); [lia|].
    replace (Nat.max (length (data c)) (S n) - 1)%nat with (length (data c) - 1)%nat by lia.
    lia.
Qed.

Lemma countAt_ok k i m m' :
  map_Forall counterOk m → countAt k i m = Some m' →
  map_Forall counterOk m' ∧ dom m' = dom m.
Proof.
  unfold countAt. intros Hok H.
  destruct (m !! k) as [c|] eqn:Hc; [|done]. simpl in H. injection H as <-.
  split.
  - apply map_Forall_insert_2; [|done].
    destruct (Hok k c Hc) as [Hname Hlast]. split; [done|].
    by apply count_lastPositive.
  - rewrite dom_insert_L. apply elem_of_dom_2 in Hc.
    apply set_eq. intros x. rewrite elem_of_union, elem_of_singleton.
    split; [by intros [->|?] | by right].
Qed.

Lemma countAll_ok keys i m m' :
  map_Forall counterOk m → countAll keys i m = Some m' →
  map_Forall counterOk m' ∧ dom m' = dom m.
Proof.
  revert m. induction keys as [|k keys IH]; intros m Hok H; simpl in H.
  - by injection H as <-.
  - destruct (countAt k i m) as [m1|] eqn:H1; [|done]. simpl in H.
    destruct (countAt_ok _ _ _ _ Hok H1) as [Hok1 Hdom1].
    destruct (IH _ Hok1 H) as [Hok' Hdom']. split; [done | congruence].
Qed.

Lemma processMoves_ok game ms i m m' :
  map_Forall counterOk m → processMoves game i ms m = Some m' →
  map_Forall counterOk m' ∧ dom m' = dom m.
Proof.
  revert i m. induction ms as [|move ms IH]; intros i m Hok H; simpl in H.
  - by injection H as <-.
  - rewrite processMove_countAll in H.
    destruct (countAll _ i m) as [m1|] eqn:H1; [|done]. simpl in H.
    destruct (countAll_ok _ _ _ _ Hok H1) as [Hok1 Hdom1].
    destruct (IH _ _ Hok1 H) as [Hok' Hdom']. split; [done | congruence].
Qed.

Lemma processGames_ok games agg agg' :
  map_Forall counterOk (counts agg) → processGames games agg = Some agg' →
  map_Forall counterOk (counts agg') ∧ dom (counts agg') = dom (counts agg) ∧
  keyOrder agg' = keyOrder agg ∧
  totalGamesCounted agg' = (totalGamesCounted agg + length games)%nat.
Proof.
  revert agg. induction games as [|g gs IH]; intros agg Hok H; simpl in H.
  - injection H as <-. split; [done|]. split; [done|]. split; [done|]. simpl. lia.
  - destruct (processGame g agg) as [agg1|] eqn:H1; [|done]. simpl in H.
    unfold processGame in H1.
    destruct (processMoves g 0 (moves g) (counts agg)) as [m1|] eqn:Hm; [|done].
    simpl in H1. injection H1 as <-.
    destruct (processMoves_ok _ _ _ _ _ Hok Hm) as [Hok1 Hdom1].
    destruct (IH (MkAgg m1 (keyOrder agg) (S (totalGamesCounted agg))) Hok1 H)
      as (Hok' & Hdom' & Horder & Htotal).
    cbn [counts keyOrder totalGamesCounted] in *.
    split; [done|]. split; [congruence|]. split; [done|].
    rewrite Htotal. simpl. lia.
Qed.

Lemma constructor_ok : map_Forall counterOk (counts constructor).
Proof.
  assert (H : bool_decide (map_Forall (λ k c, name c = k ∧ data c = [])
                             (counts constructor)) = true)
    by (vm_compute; reflexivity).
  apply bool_decide_eq_true_1 in H.
  intros k c Hc. destruct (H k c Hc) as [Hname Hdata]. split; [exact Hname|].
  unfold lastPositive. rewrite Hdata. exact I.
Qed.

Lemma sumOver_Permutation {A : Type} (f : A → nat) (l l' : list A) :
  l ≡ₚ l' → sumOver f l = sumOver f l'.
Proof. induction 1; simpl; lia. Qed.

Lemma lastPositive_eq (d d' : list nat) :
  lastPositive d → lastPositive d' →
  (∀ p, nth p d 0%nat = nth p d' 0%nat) → d = d'.
Proof.
  unfold lastPositive. rewrite !last_nth. intros Hd Hd' Hnth.
  assert (Hlen : length d = length d').
  { destruct (decide (length d = 0)%nat) as [Hz|Hnz],
             (decide (length d' = 0)%nat) as [Hz'|Hnz']; [lia| | |].
    - specialize (Hnth (length d' - 1)%nat).
      rewrite (nth_overflow d) in Hnth by lia. lia.
    - specialize (Hnth (length d - 1)%nat).
      rewrite (nth_overflow d') in Hnth by lia. lia.
    - destruct (decide (length d < length d')%nat).
      + specialize (Hnth (length d' - 1)%nat).
        rewrite (nth_overflow d) in Hnth by lia. lia.
      + destruct (decide (length d' < length d)%nat); [|lia].
        specialize (Hnth (length d - 1)%nat).
        rewrite (nth_overflow d') in Hnth by lia. lia. }
  apply (nth_ext _ _ 0%nat 0%nat); auto.
Qed.

(** The run from the constructor's table, with what it preserves. *)
Lemma run_from_constructor (games : list Game) :
  ∃ agg, processGames games constructor = Some agg ∧
    map_Forall counterOk (counts agg) ∧
    dom (counts agg) = dom (counts constructor) ∧
    keyOrder agg = keyOrder constructor ∧
    totalGamesCounted agg = length games ∧
    ∀ k p, seriesAt (counts agg) k p = sumOver (λ g, contribAt g k p) games.
Proof.
  destruct (processGames_constructor games) as (agg & Hagg & Hseries).
  exists agg. split; [exact Hagg|].
  destruct (processGames_ok _ _ _ constructor_ok Hagg) as (Hok & Hdom & Horder & Htotal).
  split; [exact Hok|]. split; [exact Hdom|]. split; [exact Horder|].
  split; [rewrite Htotal; reflexivity | exact Hseries].
Qed.

(** X4. From the constructor's table no sequence of games makes
    [processGame] throw; the run counts the games, keeps the keys of the
    [Map] and their order, and leaves under every key the counter of that
    name. *)
Theorem aggregator_never_throws (games : list Game) :
  ∃ agg, processGames games constructor = Some agg ∧
    totalGamesCounted agg = length games ∧
    keyOrder agg = keyOrder constructor ∧
    dom (counts agg) = dom (counts constructor) ∧
    ∀ k c, counts agg !! k = Some c → name c = k.
Proof.
  destruct (run_from_constructor games) as (agg & Hagg & Hok & Hdom & Horder & Htotal & _).
  exists agg. split; [exact Hagg|]. split; [exact Htotal|].
  split; [exact Horder|]. split; [exact Hdom|].
  intros k c Hc. exact (proj1 (Hok k c Hc)).
Qed.

(** X5. After any run, every series is empty or its entry at
    [lastNonzeroIndex()] is positive: no series ends in a zero. *)
Theorem last_stored_entry_positive (games : list Game) :
  ∃ agg, processGames games constructor = Some agg ∧
    ∀ k c, counts agg !! k = Some c →
      data c = [] ∨
      ∃ v, data c !! Z.to_nat (lastNonzeroIndex c) = Some v ∧ (0 < v)%nat.
Proof.
  destruct (run_from_constructor games) as (agg & Hagg & Hok & _).
  exists agg. split; [exact Hagg|]. intros k c Hc.
  destruct (Hok k c Hc) as [_ Hlast].
  unfold lastPositive in Hlast. rewrite last_nth in Hlast.
  destruct (decide (length (data c) = 0)%nat) as [Hz|Hnz].
  - left. by apply nil_length_inv.
  - right. exists (nth (length (data c) - 1) (data c) 0%nat). split; [|exact Hlast].
    unfold lastNonzeroIndex.
    replace (Z.to_nat (Z.of_nat (length (data c)) - 1)) with (length (data c) - 1)%nat by lia.
    destruct (nth_lookup_or_length (data c) (length (data c) - 1) 0%nat) as [H|H];
      [exact H | lia].
Qed.

(** X6. The order in which the games arrive does not matter: two runs on
    the same games in a different order end with the same table and write
    the same blob. *)
Theorem game_order_irrelevant (games games' : list Game) :
  games ≡ₚ games' →
  ∃ agg agg',
    processGames games constructor = Some agg ∧
    processGames games' constructor = Some agg' ∧
    counts agg = counts agg' ∧ getJson agg = getJson agg'.
Proof.
  intros Hperm.
  destruct (run_from_constructor games) as (agg & Hagg & Hok & Hdom & Horder & _ & Hs).
  destruct (run_from_constructor games') as (agg' & Hagg' & Hok' & Hdom' & Horder' & _ & Hs').
  exists agg, agg'. split; [exact Hagg|]. split; [exact Hagg'|].
  rewrite <- Hdom in Hdom'. rewrite <- Horder in Horder'.
  clear Hagg Hagg' Hdom Horder.
  assert (Hseries : ∀ k p, seriesAt (counts agg) k p = seriesAt (counts agg') k p).
  { intros k p. rewrite Hs, Hs'. by apply sumOver_Permutation. }
  assert (Hcounts : counts agg = counts agg').
  { apply map_eq. intros k.
    destruct (counts agg !! k) as [c|] eqn:Hc.
    - assert (Hin : k ∈ dom (counts agg')).
      { rewrite Hdom'. by apply elem_of_dom_2 in Hc. }
      apply elem_of_dom in Hin as [c' Hc']. rewrite Hc'. f_equal.
      destruct (Hok k c Hc) as [Hname Hlast], (Hok' k c' Hc') as [Hname' Hlast'].
      assert (Hdata : data c = data c').
      { apply lastPositive_eq; [done..|]. intros p.
        specialize (Hseries k p). unfold seriesAt in Hseries.
        by rewrite Hc, Hc' in Hseries. }
      destruct c, c'. simpl in *. congruence.
    - symmetry. apply not_elem_of_dom. rewrite Hdom'.
      by apply not_elem_of_dom. }
  split; [done|]. unfold getJson. by rewrite Hcounts, Horder'.
Qed.

Lemma game_order_irrelevant_witness :
  ∃ agg agg',
    Etl.processGames [fourPlyGame; castlingGame] Etl.constructor = Some agg ∧
    Etl.processGames [castlingGame; fourPlyGame] Etl.constructor = Some agg' ∧
    Etl.counts agg = Etl.counts agg' ∧ Etl.getJson agg = Etl.getJson agg'.
Proof.
  exact (game_order_irrelevant [fourPlyGame; castlingGame] [castlingGame; fourPlyGame]
           (perm_swap castlingGame fourPlyGame [])).
Defined.

(** total at p counts the games that have a move at ply p. *)
Lemma contrib_total (g : Game) (p : nat) : contribAt g "total" p = reaches p g.
Proof.
  unfold contribAt, reaches.
  destruct (moves g !! p) as [move|] eqn:Hmove.
  - rewrite occ_total. apply lookup_lt_Some in Hmove. by rewrite decide_True.
  - apply lookup_ge_None in Hmove. rewrite decide_False by lia. done.
Qed.

(** X7. After any run, ["total"] at ply [p] is the number of games that
    have a move at ply [p]; so the series never increases with the ply and
    never exceeds the number of games counted. *)
Theorem total_counts_games_reaching_ply (games : list Game) :
  ∃ agg, processGames games constructor = Some agg ∧
    ∀ p : nat,
      seriesAt (counts agg) "total" p = sumOver (reaches p) games ∧
      (seriesAt (counts agg) "total" (S p) ≤ seriesAt (counts agg) "total" p)%nat ∧
      (seriesAt (counts agg) "total" p ≤ totalGamesCounted agg)%nat.
Proof.
  destruct (run_from_constructor games) as (agg & Hagg & _ & _ & _ & Htotal & Hs).
  exists agg. split; [exact Hagg|]. intros p.
  assert (Hreach : ∀ q, seriesAt (counts agg) "total" q = sumOver (reaches q) games).
  { intros q. rewrite Hs. apply sumOver_ext. intros g _. apply contrib_total. }
  split; [apply Hreach|]. split.
  - rewrite !Hreach. apply sumOver_le. intros g _. unfold reaches.
    repeat case_decide; lia.
  - rewrite Hreach, Htotal. clear. induction games as [|g gs IH]; simpl; [lia|].
    unfold reaches at 1. case_decide; lia.
Qed.

Lemma moveKeys_keysFor (game : Game) (move : string) :
  moveKeys game move
  = keysFor (bool_decide (is_Some (moveElo game move))) (eloSuffix (moveElo game move))
      (moveWhere move) (movePiece move).
Proof. reflexivity. Qed.

Lemma moveWhere_dests (move : string) : moveWhere move ∈ dests.
Proof.
  unfold dests. rewrite elem_of_app, elem_of_cons, elem_of_nil.
  destruct (moveWhere_cases move); tauto.
Qed.

(** For each destination, tier, piece and destination counter: the
    untiered counter occurs as often as the three tiered ones together. *)
Lemma keysFor_tier_split (known : bool) (suffix where_ w : string) (piece : option string) :
  suffix ∈ tiers → where_ ∈ dests → w ∈ dests →
  piece ∈ None :: (Some <$> pieceNames) →
  occ ("pos_" +:+ w) (keysFor known suffix where_ piece)
  = sumOver (λ t, occ ("pos_" +:+ w +:+ t) (keysFor known suffix where_ piece)) tiers.
Proof.
  assert (Hall : bool_decide
    (Forall (λ known, Forall (λ suffix, Forall (λ where_, Forall (λ w, Forall (λ piece,
       occ ("pos_" +:+ w) (keysFor known suffix where_ piece)
       = sumOver (λ t, occ ("pos_" +:+ w +:+ t) (keysFor known suffix where_ piece)) tiers)
     (None :: (Some <$> pieceNames))) dests) dests) tiers) [true; false]) = true)
    by (vm_compute; reflexivity).
  apply bool_decide_eq_true_1 in Hall.
  intros Hs Hwh Hw Hp.
  rewrite Forall_forall in Hall.
  assert (Hk : known ∈ [true; false]) by (destruct known; rewrite !elem_of_cons; tauto).
  specialize (Hall known Hk). rewrite Forall_forall in Hall.
  specialize (Hall suffix Hs). rewrite Forall_forall in Hall.
  specialize (Hall where_ Hwh). rewrite Forall_forall in Hall.
  specialize (Hall w Hw). rewrite Forall_forall in Hall.
  exact (Hall piece Hp).
Qed.

(** X8. After any run, for each of the 64 cells and for ["castle"], the
    untiered destination counter equals the sum of its three tiered ones
    at every ply: all three increments sit under the same test of the
    rating. *)
Theorem destination_is_sum_of_tiers (games : list Game) :
  ∃ agg, processGames games constructor = Some agg ∧
    ∀ (w : string) (p : nat), w ∈ dests →
      seriesAt (counts agg) ("pos_" +:+ w) p
      = (seriesAt (counts agg) ("pos_" +:+ w +:+ "_low") p
         + seriesAt (counts agg) ("pos_" +:+ w +:+ "_mid") p
         + seriesAt (counts agg) ("pos_" +:+ w +:+ "_hi") p)%nat.
Proof.
  destruct (processGames_constructor games) as (agg & Hagg & Hseries).
  exists agg. split; [exact Hagg|]. intros w p Hw.
  rewrite !Hseries, <- !sumOver_add. apply sumOver_ext. intros g _.
  unfold contribAt. destruct (moves g !! p) as [move|]; [|reflexivity].
  rewrite moveKeys_keysFor.
  rewrite (keysFor_tier_split _ _ _ w).
  - cbn [sumOver tiers]. lia.
  - apply eloSuffix_tiers.
  - apply moveWhere_dests.
  - exact Hw.
  - destruct (movePiece move) as [v|] eqn:Hv; [|by left].
    right. apply list_elem_of_fmap_2. exact (movePiece_names move v Hv).
Qed.

End AggregatorRuns.

(** ** The destination of a move *)

Section Destinations.
Import JS Etl.

Lemma append_cons (c : ascii) (a b : string) : String c a +:+ b = String c (a +:+ b).
Proof. reflexivity. Qed.

Lemma append_nil_l (b : string) : "" +:+ b = b.
Proof. reflexivity. Qed.

Lemma length_append (a b : string) :
  String.length (a +:+ b) = (String.length a + String.length b)%nat.
Proof. induction a as [|c a IH]; [done|]. rewrite append_cons. simpl. by rewrite IH. Qed.

Lemma get_append_l (a b : string) (i : nat) :
  (i < String.length a)%nat → String.get i (a +:+ b) = String.get i a.
Proof. intros H. symmetry. by apply String.append_correct1. Qed.

Lemma get_append_r (a b : string) (i : nat) :
  String.get (String.length a + i) (a +:+ b) = String.get i b.
Proof. rewrite Nat.add_comm. symmetry. apply String.append_correct2. Qed.

Lemma substring_append_l (a b : string) (i k : nat) :
  (i + k ≤ String.length a)%nat →
  String.substring i k (a +:+ b) = String.substring i k a.
Proof.
  revert i k. induction a as [|c a IH]; intros i k H.
  - simpl in H. assert (i = 0 ∧ k = 0)%nat as [-> ->] by lia.
    rewrite append_nil_l. by destruct b.
  - rewrite append_cons. destruct i as [|i].
    + destruct k as [|k]; [done|]. simpl. f_equal. apply IH. simpl in H. lia.
    + simpl. apply IH. simpl in H. lia.
Qed.

Lemma substring_append_r (a b : string) (k : nat) :
  String.substring (String.length a) k (a +:+ b) = String.substring 0 k b.
Proof. induction a as [|c a IH]; [done|]. rewrite append_cons. simpl. apply IH. Qed.

Lemma charAt_append_l (a b : string) (i : Z) :
  i < JS.len a → charAt (a +:+ b) i = charAt a i.
Proof.
  unfold charAt, JS.len. intros H. destruct (i <? 0) eqn:Hi; [done|].
  apply Z.ltb_ge in Hi. apply get_append_l. lia.
Qed.

Lemma charAt_append_r (a b : string) (i : Z) :
  0 ≤ i → charAt (a +:+ b) (JS.len a + i) = charAt b i.
Proof.
  unfold charAt, JS.len. intros H.
  replace (Z.of_nat (String.length a) + i <? 0) with false by (symmetry; apply Z.ltb_ge; lia).
  replace (i <? 0) with false by (symmetry; apply Z.ltb_ge; lia).
  replace (Z.to_nat (Z.of_nat (String.length a) + i))
    with (String.length a + Z.to_nat i)%nat by lia.
  apply get_append_r.
Qed.

Lemma len_append (a b : string) : JS.len (a +:+ b) = JS.len a + JS.len b.
Proof. unfold JS.len. rewrite length_append. lia. Qed.

Lemma skipAnnotations_le (m : string) (k : nat) : (skipAnnotations m k ≤ k)%nat.
Proof.
  induction k as [|k IH]; [done|]. cbn [skipAnnotations].
  destruct (isAnnotation _); lia.
Qed.

Lemma skipAnnotations_ext (m m' : string) (k : nat) :
  (∀ i, 0 < i ≤ Z.of_nat k → charAt m i = charAt m' i) →
  skipAnnotations m k = skipAnnotations m' k.
Proof.
  induction k as [|k IH]; intros H; [done|]. cbn [skipAnnotations].
  rewrite (H (Z.of_nat (S k))) by lia.
  destruct (isAnnotation _); [|done]. apply IH. intros i Hi. apply H. lia.
Qed.

(** Where the loop of [getMoveRC] stops on a token whose last character
    is not an annotation: at that character. *)
Lemma skipAnnotations_stop (m : string) (k : nat) :
  isAnnotation (charAt m (Z.of_nat k)) = false → skipAnnotations m k = k.
Proof. destruct k as [|k]; [done|]. cbn [skipAnnotations]. by intros ->. Qed.

(** One more annotation at the end changes nothing. *)
Lemma getMoveRC_snoc (m : string) (a : ascii) :
  isAnnotation (Some a) = true →
  getMoveRC (m +:+ String a EmptyString) = getMoveRC m.
Proof.
  intros Ha. destruct m as [|c m]; [reflexivity|].
  set (s := String c m). set (s' := s +:+ String a EmptyString).
  assert (Hlen : JS.len s' = JS.len s + 1) by (unfold s'; by rewrite len_append).
  assert (Hpos : 1 ≤ JS.len s) by (unfold s, JS.len; simpl; lia).
  assert (Hchar : ∀ i, i < JS.len s → charAt s' i = charAt s i).
  { intros i Hi. by apply charAt_append_l. }
  assert (Hlast : charAt s' (JS.len s) = Some a).
  { unfold s'. replace (JS.len s) with (JS.len s + 0) by lia.
    by rewrite charAt_append_r. }
  unfold getMoveRC. rewrite Hlen.
  replace (JS.len s + 1 - 1) with (JS.len s) by lia.
  replace (0 <? JS.len s) with true by (symmetry; apply Z.ltb_lt; lia).
  assert (Hstep : skipAnnotations s' (Z.to_nat (JS.len s))
                  = skipAnnotations s' (Z.to_nat (JS.len s - 1))).
  { replace (Z.to_nat (JS.len s)) with (S (Z.to_nat (JS.len s - 1))) at 1 by lia.
    cbn [skipAnnotations].
    replace (Z.of_nat (S (Z.to_nat (JS.len s - 1)))) with (JS.len s) by lia.
    by rewrite Hlast, Ha. }
  rewrite Hstep.
  assert (Hsame : skipAnnotations s' (Z.to_nat (JS.len s - 1))
                  = skipAnnotations s (Z.to_nat (JS.len s - 1))).
  { apply skipAnnotations_ext. intros i Hi. apply Hchar. lia. }
  rewrite Hsame.
  pose proof (skipAnnotations_le s (Z.to_nat (JS.len s - 1))) as Hle.
  assert (Hlast1 : (if 0 <? JS.len s - 1
                    then Z.of_nat (skipAnnotations s (Z.to_nat (JS.len s - 1)))
                    else JS.len s - 1)
                   = Z.of_nat (skipAnnotations s (Z.to_nat (JS.len s - 1)))).
  { destruct (Z.ltb_spec 0 (JS.len s - 1)) as [H|H]; [done|].
    replace (JS.len s - 1) with 0 by lia. done. }
  rewrite Hlast1.
  set (last1 := Z.of_nat (skipAnnotations s (Z.to_nat (JS.len s - 1)))).
  assert (Hl1 : 0 ≤ last1 ≤ JS.len s - 1) by (unfold last1; lia).
  rewrite (Hchar (last1 - 1)) by lia.
  set (last2 := if (3 <=? last1) && bool_decide (charAt s (last1 - 1) = Some "="%char)
                then last1 - 2 else last1).
  assert (Hl2 : last2 ≤ JS.len s - 1) by (unfold last2; destruct (_ && _); lia).
  destruct (Z.ltb_spec (last2 - 1) 0) as [Hneg | Hnn]; [done|].
  unfold substr, s'. rewrite substring_append_l; [done|].
  unfold JS.len in Hl2. lia.
Qed.

(** X9. [getMoveRC] ignores any run of the annotations [+#?!] at the end
    of a token. *)
Theorem getMoveRC_annotations_ignored (m annots : string) :
  allAnnotations annots = true →
  getMoveRC (m +:+ annots) = getMoveRC m.
Proof.
  revert m. induction annots as [|a annots IH]; intros m H.
  - by rewrite append_empty.
  - cbn [allAnnotations] in H. apply andb_true_iff in H as [Ha Hrest].
    change (String a annots) with (String a EmptyString +:+ annots).
    rewrite <- append_assoc, (IH _ Hrest). by apply getMoveRC_snoc.
Qed.

Lemma getMoveRC_annotations_ignored_witness :
  allAnnotations "+!" = true ∧
  Etl.getMoveRC ("W12.Qxe5" +:+ "+!") = Etl.getMoveRC "W12.Qxe5".
Proof.
  split; [reflexivity|]. apply (getMoveRC_annotations_ignored "W12.Qxe5" "+!"). reflexivity.
Defined.

Lemma rank_not_annotation (r : ascii) :
  inRange "1" "8" r = true → isAnnotation (Some r) = false.
Proof.
  intros H. apply inRange_ranks in H. unfold ranks in H.
  rewrite !elem_of_cons, elem_of_nil in H.
  destruct H as [-> | [-> | [-> | [-> | [-> | [-> | [-> | [-> | []]]]]]]]]; reflexivity.
Qed.

Lemma file_not_equals (f : ascii) :
  inRange "a" "h" f = true → f ≠ "="%char.
Proof.
  intros H. apply inRange_files in H. unfold files in H.
  rewrite !elem_of_cons, elem_of_nil in H.
  destruct H as [-> | [-> | [-> | [-> | [-> | [-> | [-> | [-> | []]]]]]]]]; done.
Qed.

(** The loop and the promotion test on a token that ends in the two
    characters [y x], [x] no annotation. *)
Lemma getMoveRC_ending (pre : string) (y x : ascii) :
  isAnnotation (Some x) = false → y ≠ "="%char →
  getMoveRC (pre +:+ String y (String x EmptyString))
  = if inRange "a" "h" y && inRange "1" "8" x
    then Some (String y (String x EmptyString)) else None.
Proof.
  intros Hx Hy.
  set (m := pre +:+ String y (String x EmptyString)).
  assert (Hlen : JS.len m = JS.len pre + 2) by (unfold m; by rewrite len_append).
  assert (Hpre : 0 ≤ JS.len pre) by (unfold JS.len; lia).
  assert (Hcx : charAt m (JS.len pre + 1) = Some x) by (unfold m; by rewrite charAt_append_r).
  assert (Hcy : charAt m (JS.len pre) = Some y).
  { unfold m. replace (JS.len pre) with (JS.len pre + 0) by lia.
    by rewrite charAt_append_r. }
  unfold getMoveRC. rewrite Hlen.
  replace (JS.len pre + 2 - 1) with (JS.len pre + 1) by lia.
  replace (0 <? JS.len pre + 1) with true by (symmetry; apply Z.ltb_lt; lia).
  rewrite skipAnnotations_stop
    by (replace (Z.of_nat (Z.to_nat (JS.len pre + 1))) with (JS.len pre + 1) by lia;
        by rewrite Hcx).
  replace (Z.of_nat (Z.to_nat (JS.len pre + 1))) with (JS.len pre + 1) by lia.
  replace (JS.len pre + 1 - 1) with (JS.len pre) by lia.
  rewrite Hcy. rewrite (bool_decide_eq_false_2 (Some y = Some "="%char)) by congruence.
  rewrite andb_false_r.
  replace (JS.len pre + 1 - 1) with (JS.len pre) by lia.
  replace (JS.len pre <? 0) with false by (symmetry; apply Z.ltb_ge; lia).
  unfold substr, m, JS.len. rewrite Nat2Z.id, substring_append_r. reflexivity.
Qed.

(** The same on a token that ends in [y x = q]: the promotion test steps
    over [= q]. *)
Lemma getMoveRC_promoted (pre : string) (y x q : ascii) :
  isAnnotation (Some q) = false →
  getMoveRC (pre +:+ String y (String x (String "=" (String q EmptyString))))
  = if inRange "a" "h" y && inRange "1" "8" x
    then Some (String y (String x EmptyString)) else None.
Proof.
  intros Hq.
  set (m := pre +:+ String y (String x (String "=" (String q EmptyString)))).
  assert (Hlen : JS.len m = JS.len pre + 4) by (unfold m; by rewrite len_append).
  assert (Hpre : 0 ≤ JS.len pre) by (unfold JS.len; lia).
  assert (Hcq : charAt m (JS.len pre + 3) = Some q) by (unfold m; by rewrite charAt_append_r).
  assert (Hce : charAt m (JS.len pre + 2) = Some "="%char)
    by (unfold m; by rewrite charAt_append_r).
  unfold getMoveRC. rewrite Hlen.
  replace (JS.len pre + 4 - 1) with (JS.len pre + 3) by lia.
  replace (0 <? JS.len pre + 3) with true by (symmetry; apply Z.ltb_lt; lia).
  rewrite skipAnnotations_stop
    by (replace (Z.of_nat (Z.to_nat (JS.len pre + 3))) with (JS.len pre + 3) by lia;
        by rewrite Hcq).
  replace (Z.of_nat (Z.to_nat (JS.len pre + 3))) with (JS.len pre + 3) by lia.
  replace (JS.len pre + 3 - 1) with (JS.len pre + 2) by lia.
  rewrite Hce. rewrite bool_decide_eq_true_2 by done.
  replace (3 <=? JS.len pre + 3) with true by (symmetry; apply Z.leb_le; lia).
  cbn [andb].
  replace (JS.len pre + 3 - 2 - 1) with (JS.len pre) by lia.
  replace (JS.len pre <? 0) with false by (symmetry; apply Z.ltb_ge; lia).
  unfold substr, m, JS.len. rewrite Nat2Z.id, substring_append_r. reflexivity.
Qed.

(** X10. On a token that does not end in an annotation or a promotion,
    [getMoveRC] reads the last two characters: they are the destination
    when they name a cell, and there is none otherwise; so a castling
    token, which ends in [-O], has no destination. *)
Theorem getMoveRC_last_two (pre : string) (y x : ascii) :
  isAnnotation (Some x) = false → y ≠ "="%char →
  getMoveRC (pre +:+ String y (String x EmptyString))
  = (if inRange "a" "h" y && inRange "1" "8" x
     then Some (String y (String x EmptyString)) else None) ∧
  getMoveRC (pre +:+ "O-O") = None ∧
  getMoveRC (pre +:+ "O-O-O") = None.
Proof.
  intros Hx Hy. split; [by apply getMoveRC_ending|].
  assert (Hshort : pre +:+ "O-O" = (pre +:+ "O") +:+ "-O") by by rewrite append_assoc.
  assert (Hlong : pre +:+ "O-O-O" = (pre +:+ "O-O") +:+ "-O") by by rewrite append_assoc.
  rewrite Hshort, Hlong.
  split; (rewrite getMoveRC_ending; [reflexivity | reflexivity | discriminate]).
Qed.

Lemma getMoveRC_last_two_witness :
  Etl.getMoveRC ("W4." +:+ "f3") = Some "f3" ∧
  Etl.getMoveRC ("W4." +:+ "O-O") = None ∧ Etl.getMoveRC ("W4." +:+ "O-O-O") = None.
Proof.
  apply (getMoveRC_last_two "W4." "f" "3"); [reflexivity | discriminate].
Defined.

(** X11. A token that ends in a cell goes to that cell, and a promotion
    [...f r = q] goes to the cell before the equals sign. *)
Theorem getMoveRC_promotion (pre : string) (f r q : ascii) :
  inRange "a" "h" f = true → inRange "1" "8" r = true →
  isAnnotation (Some q) = false →
  getMoveRC (pre +:+ String f (String r EmptyString)) = Some (String f (String r EmptyString)) ∧
  getMoveRC (pre +:+ String f (String r (String "=" (String q EmptyString))))
  = Some (String f (String r EmptyString)).
Proof.
  intros Hf Hr Hq. split.
  - rewrite getMoveRC_ending; [by rewrite Hf, Hr | by apply rank_not_annotation
                              | by apply file_not_equals].
  - rewrite getMoveRC_promoted by done. by rewrite Hf, Hr.
Qed.

Lemma getMoveRC_promotion_witness :
  Etl.getMoveRC ("W44." +:+ "a8") = Some "a8" ∧
  Etl.getMoveRC ("W44." +:+ "a8=Q") = Some "a8".
Proof.
  apply (getMoveRC_promotion "W44." "a" "8" "Q"); reflexivity.
Defined.

End Destinations.

(** ** The two readers *)

Section Readers.
Import JS Etl.

(** One line of the rated format: what it hands to the callback. *)
Lemma lichessLine_emit (maxQuantity : Z) (st : LichessState) (line : string) :
  match lichessLine maxQuantity st line with
  | (st', Some g, closed) =>
      index g = Some (l_index st) ∧ l_index st' = l_index st + 1 ∧
      len g = Some (Z.of_nat (length (moves g))) ∧ (2 ≤ length (moves g))%nat ∧
      origin g = "lichess" ∧ moves g = lichessMovesParse (trim line) ∧
      closed = bool_decide (maxQuantity ≤ l_index st + 1)
  | (st', None, closed) => l_index st' = l_index st ∧ closed = false
  end.
Proof.
  unfold lichessLine.
  destruct (exec ELO_PATTERN (trim line)) as [m|]; [destruct (String.eqb _ _)|];
    (destruct (exec MOVE_1_PATTERN (trim line)); [|done]);
    (destruct (exec DATE_PATTERN (trim line)); [|destruct (l_date st)]);
    (destruct (exec RESULT_PATTERN (trim line)); [|destruct (l_result st)]);
    try done;
    (destruct (Z.leb_spec 2 (Z.of_nat (length (lichessMovesParse (trim line)))));
     [|done]); cbn [index len moves origin l_index];
    (repeat split; try done; lia).
Qed.

Lemma lichessChunk_numbered (maxQuantity : Z) (lines : list string) (st : LichessState) :
  let r := lichessChunk maxQuantity st lines in
  l_index r.1.2 = l_index st + Z.of_nat (length r.1.1) ∧
  (length r.1.1 ≤ length lines)%nat ∧
  (r.2 = false → r.1.1 = [] ∨ l_index r.1.2 < maxQuantity) ∧
  ∀ i g, r.1.1 !! i = Some g →
    index g = Some (l_index st + Z.of_nat i) ∧
    len g = Some (Z.of_nat (length (moves g))) ∧ (2 ≤ length (moves g))%nat ∧
    origin g = "lichess".
Proof.
  revert st. induction lines as [|l ls IH]; intros st; cbn [lichessChunk].
  - simpl. split; [lia|]. split; [lia|]. split; [by left|]. intros i g H. done.
  - pose proof (lichessLine_emit maxQuantity st l) as Hline.
    destruct (lichessLine maxQuantity st l) as [[st' g] closed].
    specialize (IH st'). cbv zeta in IH.
    destruct (lichessChunk maxQuantity st' ls) as [[gs st''] closed'].
    cbn [fst snd] in *. destruct IH as (IHi & IHl & IHc & IHg).
    destruct g as [g|].
    + destruct Hline as (Hidx & Hst & Hlen & Hmoves & Horigin & _ & Hclosed).
      change (option_list (Some g) ++ gs) with (g :: gs). cbn [length].
      split; [lia|]. split; [lia|]. split.
      * intros Hor. apply orb_false_iff in Hor as [Hc Hc']. right.
        subst closed. apply bool_decide_eq_false_1 in Hc.
        destruct (IHc Hc') as [-> | Hlt]; [simpl in IHi; lia | done].
      * intros [|i] g' Hg'.
        -- simpl in Hg'. injection Hg' as <-. rewrite Hidx.
           split; [f_equal; lia | done].
        -- simpl in Hg'. destruct (IHg i g' Hg') as (Hi' & Hrest).
           split; [rewrite Hi'; f_equal; lia | done].
    + destruct Hline as [Hst ->]. change (option_list None ++ gs) with gs. cbn [orb].
      split; [lia|]. split; [simpl; lia|]. split; [done|].
      intros i g' Hg'. destruct (IHg i g' Hg') as (Hi' & Hrest).
      split; [rewrite Hi'; f_equal; lia | done].
Qed.

Lemma lichessLines_numbered (maxQuantity : Z) (chunks : list (list string))
    (st : LichessState) (i : nat) (g : Game) :
  lichessLines maxQuantity st chunks !! i = Some g →
  index g = Some (l_index st + Z.of_nat i) ∧
  len g = Some (Z.of_nat (length (moves g))) ∧ (2 ≤ length (moves g))%nat ∧
  origin g = "lichess".
Proof.
  revert st i. induction chunks as [|c cs IH]; intros st i Hg; [done|].
  cbn [lichessLines] in Hg.
  pose proof (lichessChunk_numbered maxQuantity c st) as Hchunk. cbv zeta in Hchunk.
  destruct (lichessChunk maxQuantity st c) as [[gs st'] closed].
  cbn [fst snd] in Hchunk. destruct Hchunk as (Hidx & _ & _ & Hgs).
  apply lookup_app_Some in Hg as [Hin | [Hge Hin]]; [by apply Hgs|].
  destruct closed; [done|].
  destruct (IH st' _ Hin) as (Hi' & Hrest).
  split; [rewrite Hi'; f_equal; lia | done].
Qed.

(** X12. The games of the rated reader are numbered from 0 in the order
    they are handed over; each has at least two moves, and [len] is their
    number. *)
Theorem lichess_games_numbered (chunks : list (list string)) (maxQuantity : Z)
    (i : nat) (g : Game) :
  forEachLichessGame chunks maxQuantity !! i = Some g →
  index g = Some (Z.of_nat i) ∧
  len g = Some (Z.of_nat (length (moves g))) ∧ (2 ≤ length (moves g))%nat ∧
  origin g = "lichess".
Proof. intros Hg. by apply lichessLines_numbered in Hg. Qed.

Lemma lichess_games_numbered_witness :
  ∃ g, Etl.forEachLichessGame [ratedMetadata ++ [annotatedMovetext]] QUANTITY !! 0%nat
       = Some g ∧
       Etl.index g = Some 0 ∧ (2 ≤ length (Etl.moves g))%nat.
Proof.
  destruct (Etl.forEachLichessGame [ratedMetadata ++ [annotatedMovetext]] QUANTITY !! 0%nat)
    as [g|] eqn:Hg; [|vm_compute in Hg; discriminate Hg].
  exists g. split; [reflexivity|].
  destruct (lichess_games_numbered _ _ _ _ Hg) as (Hi & _ & Hm & _).
  split; [exact Hi | exact Hm].
Defined.

Lemma lichessLines_bound (maxQuantity : Z) (n : nat) (chunks : list (list string))
    (st : LichessState) :
  (1 ≤ n)%nat → Forall (λ c, (length c ≤ n)%nat) chunks →
  Z.of_nat (length (lichessLines maxQuantity st chunks))
  ≤ Z.max (maxQuantity - l_index st) 1 + Z.of_nat n - 1.
Proof.
  intros Hn. revert st. induction chunks as [|c cs IH]; intros st Hall.
  - simpl. lia.
  - apply Forall_cons in Hall as [Hc Hcs]. cbn [lichessLines].
    pose proof (lichessChunk_numbered maxQuantity c st) as Hchunk. cbv zeta in Hchunk.
    destruct (lichessChunk maxQuantity st c) as [[gs st'] closed].
    cbn [fst snd] in Hchunk. destruct Hchunk as (Hidx & Hlen & Hclosed & _).
    rewrite length_app. destruct closed.
    + simpl. lia.
    + specialize (IH st' Hcs). destruct (Hclosed eq_refl) as [-> | Hlt].
      * simpl in *. replace (l_index st') with (l_index st) in IH by lia. lia.
      * lia.
Qed.

(** X13. The cap of the rated reader: with chunks of at most [n] lines it
    hands over at most [max(maxQuantity, 1) + n - 1] games; so never more
    than the cap when every line comes in a chunk of its own. *)
Theorem lichess_cap (chunks : list (list string)) (maxQuantity : Z) (n : nat) :
  (1 ≤ n)%nat → Forall (λ c, (length c ≤ n)%nat) chunks →
  Z.of_nat (length (forEachLichessGame chunks maxQuantity))
  ≤ Z.max maxQuantity 1 + Z.of_nat n - 1.
Proof.
  intros Hn Hall. unfold forEachLichessGame.
  pose proof (lichessLines_bound maxQuantity n chunks lichessStart Hn Hall) as H.
  simpl in H. rewrite Z.sub_0_r in H. exact H.
Qed.

Lemma lichess_cap_witness :
  Z.of_nat (length (Etl.forEachLichessGame [ratedMetadata ++ [annotatedMovetext]] 1))
  ≤ Z.max 1 1 + Z.of_nat 7 - 1.
Proof.
  apply (lichess_cap [ratedMetadata ++ [annotatedMovetext]] 1 7); [lia|].
  apply Forall_cons. split; [vm_compute; lia | apply Forall_nil_2].
Defined.

(** *** The pro reader *)
Lemma proMoves_spec (foundPound : bool) (items : list string) :
  ("###" ∉ proMoves foundPound items) ∧
  (("###" ∉ items) → proMoves foundPound items = (if foundPound then items else [])).
Proof.
  revert foundPound. induction items as [|item items IH]; intros foundPound.
  - split; [by apply not_elem_of_nil | by destruct foundPound].
  - cbn [proMoves]. destruct (String.eqb_spec item "###") as [-> | Hne].
    + split; [apply IH|]. intros Hnot. exfalso. apply Hnot. by left.
    + destruct (IH foundPound) as [IHn IHm]. destruct foundPound.
      * split.
        -- rewrite not_elem_of_cons. split; [congruence | done].
        -- intros Hnot. apply not_elem_of_cons in Hnot as [_ Hnot]. by rewrite IHm.
      * split; [done|].
        intros Hnot. apply not_elem_of_cons in Hnot as [_ Hnot]. by apply IHm.
Qed.

Lemma proMoves_true (items : list string) :
  proMoves true items = filter (λ item, item ≠ "###") items.
Proof.
  induction items as [|item items IH]; [done|]. cbn [proMoves].
  destruct (String.eqb_spec item "###") as [-> | Hne].
  - by rewrite filter_cons_False by (intros H; by apply H).
  - by rewrite filter_cons_True, IH by done.
Qed.

(** X14. The moves of a pro game are the items after the first ["###"],
    without any further ["###"]; a line without ["###"] has no moves. *)
Theorem proMoves_after_pound (pre post : list string) :
  "###" ∉ pre →
  proMoves false (pre ++ "###" :: post) = filter (λ item, item ≠ "###") post ∧
  proMoves false pre = [] ∧
  ("###" ∉ proMoves false (pre ++ "###" :: post)).
Proof.
  intros Hpre. split; [|split; [by apply (proMoves_spec false) | apply proMoves_spec]].
  induction pre as [|item pre IH].
  - cbn [app proMoves]. change (if String.eqb "###" "###" then _ else _)
      with (proMoves true post). apply proMoves_true.
  - apply not_elem_of_cons in Hpre as [Hne Hpre]. cbn [app proMoves].
    destruct (String.eqb_spec item "###") as [-> | _]; [done|]. by apply IH.
Qed.

Lemma proMoves_after_pound_witness :
  Etl.proMoves false (["1"; "2000.03.14"] ++ "###" :: ["W1.e4"; "###"; "B1.e5"])
  = filter (λ item, item ≠ "###") ["W1.e4"; "###"; "B1.e5"].
Proof.
  apply (proMoves_after_pound ["1"; "2000.03.14"] ["W1.e4"; "###"; "B1.e5"]).
  apply (bool_decide_eq_true_1 _). vm_compute. reflexivity.
Defined.

Lemma splitSpace_length (s : string) :
  (1 ≤ length (splitSpace s))%nat ∧
  (hasSpace s = false ↔ length (splitSpace s) = 1%nat).
Proof.
  induction s as [|c s [IH1 IH2]]; [done|]. cbn [splitSpace hasSpace].
  destruct (isSpace c).
  - cbn [orb length]. split; [lia|]. split; [done | lia].
  - cbn [orb]. destruct (splitSpace s) as [|item items]; [simpl in IH1; lia|].
    cbn [length] in *. done.
Qed.

(** X15. One line of the pro format: a blank line or a comment is
    skipped, a line of one item throws, and any other line hands over one
    game and calls [close()] once the cap is reached. *)
Theorem proLine_cases (maxQuantity : option Z) (count : Z) (line : string) :
  (proSkipped line = true →
     proLine maxQuantity count line = Some (count, None, false)) ∧
  (proSkipped line = false → hasSpace (trim line) = false →
     proLine maxQuantity count line = None) ∧
  (proSkipped line = false → hasSpace (trim line) = true →
     ∃ g, proLine maxQuantity count line
          = Some (count + 1, Some g,
                  match maxQuantity with
                  | Some q => bool_decide (q ≤ count + 1)
                  | None => false
                  end) ∧
          p_moves g = proMoves false (splitSpace (trim line)) ∧
          p_result g = splitSpace (trim line) !! 2%nat ∧
          p_origin g = "pro").
Proof.
  unfold proSkipped, proLine.
  destruct (_ || _); (split; [|split]); try done.
  - intros _ Hspace. apply splitSpace_length in Hspace.
    destruct (splitSpace (trim line)) as [|item [|item' items]]; done.
  - intros _ Hspace.
    destruct (splitSpace_length (trim line)) as [H1 H2].
    destruct (splitSpace (trim line)) as [|item [|item' items]] eqn:Hitems.
    + simpl in H1. lia.
    + rewrite (proj2 H2 eq_refl) in Hspace. done.
    + cbn [lookup list_lookup]. eexists. split; [reflexivity|]. done.
Qed.

(** The cap as a number, if there is one. *)
Lemma proLine_count (maxQuantity : option Z) (count : Z) (line : string) :
  match proLine maxQuantity count line with
  | Some (count', g, closed) =>
      count' = count + Z.of_nat (length (option_list g)) ∧
      closed = match maxQuantity with
               | Some q => bool_decide (is_Some g ∧ q ≤ count')
               | None => false
               end
  | None => True
  end.
Proof.
  unfold proLine. destruct (_ || _).
  - split; [simpl; lia|]. destruct maxQuantity as [q|]; [|done].
    symmetry. apply bool_decide_eq_false_2. by intros [[? ?] _].
  - destruct (splitSpace (trim line) !! 1%nat); [|done].
    split; [simpl; lia|]. destruct maxQuantity as [q|]; [|done].
    apply bool_decide_ext. split; [by eauto | by intros [_ ?]].
Qed.

Lemma proChunk_counted (maxQuantity : option Z) (lines : list string) (count : Z) :
  let r := proChunk maxQuantity count lines in
  r.1.1.2 = count + Z.of_nat (length r.1.1.1) ∧
  (length r.1.1.1 ≤ length lines)%nat ∧
  (r.1.2 = false →
   match maxQuantity with
   | Some q => r.1.1.1 = [] ∨ r.1.1.2 < q
   | None => True
   end) ∧
  (r.1.2 = true → ∃ q, maxQuantity = Some q ∧ q ≤ r.1.1.2).
Proof.
  revert count. induction lines as [|l ls IH]; intros count; cbn [proChunk].
  - simpl. split; [lia|]. split; [lia|]. split; [|done].
    intros _. destruct maxQuantity; [by left | done].
  - pose proof (proLine_count maxQuantity count l) as Hline.
    destruct (proLine maxQuantity count l) as [[[count' g] closed]|].
    + destruct Hline as [Hcount Hclosed].
      specialize (IH count'). cbv zeta in IH.
      destruct (proChunk maxQuantity count' ls) as [[[gs count''] closed'] threw].
      cbn [fst snd] in *. destruct IH as (IHc & IHl & IHf & IHt).
      rewrite length_app. cbn [length].
      assert (Hg : (length (option_list g) ≤ 1)%nat) by (destruct g; cbv; lia).
      split; [lia|]. split; [lia|]. split.
      * intros Hor. apply orb_false_iff in Hor as [Hc Hc'].
        specialize (IHf Hc'). destruct maxQuantity as [q|]; [|done].
        subst closed. apply bool_decide_eq_false_1 in Hc.
        destruct g as [g|].
        -- right. destruct IHf as [-> | Hlt]; [|done].
           simpl in IHc. assert (¬ q ≤ count') by (intros ?; apply Hc; eauto). lia.
        -- change (option_list None ++ gs) with gs. done.
      * intros Hor. apply orb_true_iff in Hor as [Hc | Hc'].
        -- destruct maxQuantity as [q|]; [|by subst closed].
           subst closed. apply bool_decide_eq_true_1 in Hc as [_ Hc].
           exists q. split; [done|]. lia.
        -- by apply IHt.
    + simpl. split; [lia|]. split; [lia|]. split; [|done].
      intros _. destruct maxQuantity; [by left | done].
Qed.

Lemma proLines_bound (q : Z) (n : nat) (chunks : list (list string)) (count : Z) :
  (1 ≤ n)%nat → Forall (λ c, (length c ≤ n)%nat) chunks →
  Z.of_nat (length (proLines (Some q) count chunks).1)
  ≤ Z.max (q - count) 1 + Z.of_nat n - 1.
Proof.
  intros Hn. revert count. induction chunks as [|c cs IH]; intros count Hall.
  - simpl. lia.
  - apply Forall_cons in Hall as [Hc Hcs]. cbn [proLines].
    pose proof (proChunk_counted (Some q) c count) as Hchunk. cbv zeta in Hchunk.
    destruct (proChunk (Some q) count c) as [[[gs count'] closed] threw].
    cbn [fst snd] in Hchunk. destruct Hchunk as (Hcount & Hlen & Hclosed & _).
    destruct threw; [simpl; lia|]. destruct closed; [simpl; lia|].
    cbn [orb]. specialize (IH count' Hcs).
    destruct (proLines (Some q) count' cs) as [gs' threw']. cbn [fst] in *.
    rewrite length_app. destruct (Hclosed eq_refl) as [-> | Hlt].
    + simpl in *. replace count' with count in IH by lia. lia.
    + lia.
Qed.

(** X16. The cap of the pro reader, as for the rated one: with chunks of
    at most [n] lines it hands over at most [max(maxQuantity, 1) + n - 1]
    games. *)
Theorem pro_cap (chunks : list (list string)) (q : Z) (n : nat) :
  (1 ≤ n)%nat → Forall (λ c, (length c ≤ n)%nat) chunks →
  Z.of_nat (length (forEachProGame chunks (Some q)).1) ≤ Z.max q 1 + Z.of_nat n - 1.
Proof.
  intros Hn Hall. unfold forEachProGame.
  pose proof (proLines_bound q n chunks 0 Hn Hall) as H.
  rewrite Z.sub_0_r in H. exact H.
Qed.

Lemma pro_cap_witness :
  Z.of_nat (length (Etl.forEachProGame [proInput] (Some 1)).1)
  ≤ Z.max 1 1 + Z.of_nat 2 - 1.
Proof.
  apply (pro_cap [proInput] 1 2); [lia|].
  apply Forall_cons. split; [vm_compute; lia | apply Forall_nil_2].
Defined.

Lemma proChunk_app (maxQuantity : option Z) (l1 l2 : list string) (count : Z) :
  proChunk maxQuantity count (l1 ++ l2)
  = let '(gs1, count1, c1, t1) := proChunk maxQuantity count l1 in
    if t1 then (gs1, count1, c1, true)
    else let '(gs2, count2, c2, t2) := proChunk maxQuantity count1 l2 in
         (gs1 ++ gs2, count2, c1 || c2, t2).
Proof.
  revert count. induction l1 as [|l l1 IH]; intros count; cbn [proChunk app].
  - by destruct (proChunk maxQuantity count l2) as [[[gs2 count2] c2] t2].
  - destruct (proLine maxQuantity count l) as [[[count' g] closed]|]; [|done].
    rewrite IH.
    destruct (proChunk maxQuantity count' l1) as [[[gs1 count1] c1] t1].
    destruct t1; [done|].
    destruct (proChunk maxQuantity count1 l2) as [[[gs2 count2] c2] t2].
    by rewrite app_assoc, orb_assoc.
Qed.

(** X17. Without a cap, or below it, the pro reader hands over the same
    games (and throws or not alike) in whatever chunks the file is
    read. *)
Theorem pro_chunking_irrelevant (maxQuantity : option Z) (chunks : list (list string)) :
  match maxQuantity with
  | Some q => Z.of_nat (length (concat chunks)) < q
  | None => True
  end →
  forEachProGame chunks maxQuantity = forEachProGame [concat chunks] maxQuantity.
Proof.
  unfold forEachProGame.
  assert (Hgen : ∀ count,
    match maxQuantity with
    | Some q => count + Z.of_nat (length (concat chunks)) < q
    | None => True
    end →
    proLines maxQuantity count chunks = proLines maxQuantity count [concat chunks]).
  { induction chunks as [|c cs IH]; intros count Hcap; [done|].
    cbn [concat] in *. rewrite length_app in Hcap. cbn [proLines].
    rewrite proChunk_app.
    pose proof (proChunk_counted maxQuantity c count) as Hchunk. cbv zeta in Hchunk.
    destruct (proChunk maxQuantity count c) as [[[gs1 count1] c1] t1].
    cbn [fst snd] in Hchunk. destruct Hchunk as (Hcount & Hlen & _ & Hclosed).
    destruct t1; [by destruct c1|].
    assert (Hc1 : c1 = false).
    { destruct c1; [|done]. destruct (Hclosed eq_refl) as (q & -> & Hq). lia. }
    subst c1. cbn [orb]. rewrite IH by (destruct maxQuantity; [lia | done]).
    cbn [proLines].
    destruct (proChunk maxQuantity count1 (concat cs)) as [[[gs2 count2] c2] t2].
    destruct (t2 || c2); by rewrite ?app_nil_r. }
  intros Hcap. apply Hgen. destruct maxQuantity; [lia | done].
Qed.

Lemma pro_chunking_irrelevant_witness :
  Etl.forEachProGame [["# comment"]; proInput] None
  = Etl.forEachProGame [concat [["# comment"]; proInput]] None.
Proof. exact (pro_chunking_irrelevant None [["# comment"]; proInput] I). Defined.

End Readers.

(** ** The front end on a blob *)

Section FrontEnd.
Import JS Vis.

Lemma halves_lengths_sums (d : list Z) :
  length (pairSums d) = (length d / 2)%nat ∧
  length (evens d) = ((length d + 1) / 2)%nat ∧
  length (odds d) = (length d / 2)%nat ∧
  sumZ id (evens d) + sumZ id (odds d) = sumZ id d ∧
  sumZ id (pairSums d)
  = sumZ id d - (if Nat.even (length d) then 0 else default 0 (last d)).
Proof.
  induction d as [| x | x y r (IHp & IHe & IHo & IHs & IHa)] using list_pair_ind.
  - by vm_compute.
  - cbn. unfold id. repeat split; lia.
  - assert (Hlen : (length (x :: y :: r) / 2 = S (length r / 2))%nat).
    { simpl length. replace (S (S (length r))) with (1 * 2 + length r)%nat by lia.
      rewrite Nat.div_add_l by lia. lia. }
    assert (Hlen' : ((length (x :: y :: r) + 1) / 2 = S ((length r + 1) / 2))%nat).
    { simpl length. replace (S (S (length r)) + 1)%nat with (1 * 2 + (length r + 1))%nat by lia.
      rewrite Nat.div_add_l by lia. lia. }
    rewrite Hlen, Hlen'. cbn [pairSums evens odds length sumZ].
    split; [by rewrite IHp|]. split; [by rewrite IHe|]. split; [by rewrite IHo|].
    split; [unfold id in *; lia|].
    rewrite IHa. cbn [Nat.even].
    destruct r as [|z r]; [cbn; unfold id; lia|].
    change (last (x :: y :: z :: r)) with (last (z :: r)). unfold id. lia.
Qed.

(** X18. The colour modes on a series of any length: how long the view
    is, and what it keeps of the total.  White and black split the total
    between them; the whole-move view loses the unpaired last entry of a
    series of odd length; ["separate"] changes nothing. *)
Theorem aggregateBy_lengths_and_sums (c : Counts) :
  let L := length (data c) in
  length (data (aggregateBy "aggregated" c)) = (L / 2)%nat ∧
  length (data (aggregateBy "white" c)) = ((L + 1) / 2)%nat ∧
  length (data (aggregateBy "black" c)) = (L / 2)%nat ∧
  sumZ id (data (aggregateBy "white" c)) + sumZ id (data (aggregateBy "black" c))
  = sumZ id (data c) ∧
  sumZ id (data (aggregateBy "aggregated" c))
  = sumZ id (data c) - (if Nat.even L then 0 else default 0 (last (data c))) ∧
  aggregateBy "separate" c = c.
Proof.
  intros L. subst L.
  destruct (halves_lengths_sums (data c)) as (Hp & He & Ho & Hs & Ha).
  destruct (filterFrom_even_odd (data c) 0) as [Hfe Hfo].
  change (2 * 0)%nat with 0%nat in Hfe, Hfo.
  unfold aggregateBy.
  change (String.eqb "aggregated" "aggregated") with true.
  change (String.eqb "white" "aggregated") with false.
  change (String.eqb "white" "white") with true.
  change (String.eqb "black" "aggregated") with false.
  change (String.eqb "black" "white") with false.
  change (String.eqb "black" "black") with true.
  change (String.eqb "separate" "aggregated") with false.
  change (String.eqb "separate" "white") with false.
  change (String.eqb "separate" "black") with false.
  cbn [data]. rewrite Hfe, Hfo.
  rewrite aggregatedLoop_pairSums by lia. rewrite drop_0. cbn [app].
  done.
Qed.

(** X19. [findData] returns the view of the first entry of that name,
    and throws exactly when there is none. *)
Theorem findData_first_match (key aggregation : string) (DATA : list Datum) :
  (∀ pre d post, DATA = pre ++ (key, d) :: post → key ∉ pre.*1 →
     findData key aggregation DATA = Some (aggregateBy aggregation (newCounts key d))) ∧
  (findData key aggregation DATA = None ↔ key ∉ DATA.*1).
Proof.
  split.
  - intros pre d post -> Hpre. induction pre as [|e pre IH].
    + cbn [app findData fst snd]. by rewrite String.eqb_refl.
    + rewrite fmap_cons, not_elem_of_cons in Hpre. destruct Hpre as [Hne Hpre].
      cbn [app findData]. destruct (String.eqb_spec e.1 key) as [Heq|_]; [by destruct Hne|].
      by apply IH.
  - split; [|apply findData_absent].
    intros Hnone Hin. destruct (findData_present key aggregation DATA Hin) as [c Hc].
    congruence.
Qed.

(** X20. [getDomain(low, high)] has one point for each integer from
    [low] up to [high - 1], in order, with [y = get(x)]; [y] is 0 outside
    [1 .. lastNonzeroIndex()]; and two adjacent domains concatenate. *)
Theorem getDomain_points (low high : Z) (c : Counts) :
  length (getDomain low high c) = Z.to_nat (high - low) ∧
  (∀ i : nat, (i < Z.to_nat (high - low))%nat →
     getDomain low high c !! i
     = Some (low + Z.of_nat i, get (low + Z.of_nat i) c)) ∧
  (∀ x y, (x, y) ∈ getDomain low high c →
     low ≤ x < high ∧ (x ≤ 0 ∨ lastNonzeroIndex c < x → y = 0)) ∧
  (∀ mid, low ≤ mid ≤ high →
     getDomain low high c = getDomain low mid c ++ getDomain mid high c).
Proof.
  unfold getDomain, range. split; [by rewrite !length_fmap, length_seq|]. split; [|split].
  - intros i Hi. rewrite !list_lookup_fmap, lookup_seq_lt by done. done.
  - intros x y Hin. apply list_elem_of_fmap_1 in Hin as (x' & Heq & Hin).
    injection Heq as -> ->.
    apply list_elem_of_fmap_1 in Hin as (k & -> & Hk). apply elem_of_seq in Hk.
    split; [lia|]. intros Hout. unfold get, lastNonzeroIndex in *.
    destruct (Z.leb_spec (low + Z.of_nat k) 0); [done|].
    destruct (Z.geb_spec (low + Z.of_nat k) (Z.of_nat (length (data c)))); [done | lia].
  - intros mid Hmid. rewrite <- !fmap_app. f_equal.
    replace (Z.to_nat (high - low))
      with (Z.to_nat (mid - low) + Z.to_nat (high - mid))%nat by lia.
    rewrite seq_app, fmap_app. f_equal.
    apply list_eq. intros i. rewrite !list_lookup_fmap.
    destruct (decide (i < Z.to_nat (high - mid))%nat) as [Hi|Hi].
    + rewrite !lookup_seq_lt by done. simpl. f_equal. lia.
    + by rewrite !lookup_seq_ge by lia.
Qed.

(** Reading a counter of the aggregator back from the blob. *)
Lemma findData_getJson (m : gmap string Etl.Counts) (keys : list string)
    (k aggregation : string) (c : Etl.Counts) :
  map_Forall counterOk m → k ∈ keys → m !! k = Some c →
  findData k aggregation (omap (λ k, Etl.asPlainObject <$> m !! k) keys)
  = Some (aggregateBy aggregation (newCounts k (Z.of_nat <$> Etl.data c))).
Proof.
  intros Hok Hin Hc. induction keys as [|k' keys IH]; [by apply elem_of_nil in Hin|].
  cbn [omap list_omap].
  destruct (m !! k') as [c'|] eqn:Hc'.
  - cbn [fmap option_fmap option_map findData Etl.asPlainObject fst snd].
    destruct (Hok k' c' Hc') as [Hname _]. rewrite Hname.
    destruct (String.eqb_spec k' k) as [-> | Hne].
    + rewrite Hc in Hc'. by injection Hc' as <-.
    + apply IH. apply elem_of_cons in Hin as [-> | Hin]; [done | exact Hin].
  - cbn [fmap option_fmap option_map].
    apply IH. apply elem_of_cons in Hin as [-> | Hin]; [congruence | exact Hin].
Qed.

Lemma constructor_keys (k : string) :
  is_Some (Etl.counts Etl.constructor !! k) → k ∈ Etl.keyOrder Etl.constructor.
Proof.
  assert (H : bool_decide (map_Forall (λ k _, k ∈ Etl.keyOrder Etl.constructor)
                             (Etl.counts Etl.constructor)) = true)
    by (vm_compute; reflexivity).
  apply bool_decide_eq_true_1 in H. intros [c Hc]. exact (H k c Hc).
Qed.

Lemma vis_get_of_nat (n : Z) (k : string) (c : Etl.Counts) :
  get n (newCounts k (Z.of_nat <$> Etl.data c)) = Z.of_nat (Etl.get n c).
Proof.
  unfold get, Etl.get, newCounts. cbn [data]. rewrite length_fmap.
  destruct (_ || _); [done|].
  rewrite !nth_lookup, list_lookup_fmap. by destruct (Etl.data c !! Z.to_nat n).
Qed.

(** X21. What the aggregator counted is what the front end reads: every
    counter of a run is found in the blob under its key, with the same
    series, and [get] gives the same number on both sides. *)
Theorem blob_round_trip (games : list Etl.Game) :
  ∃ agg, Etl.processGames games Etl.constructor = Some agg ∧
    ∀ k c, Etl.counts agg !! k = Some c →
      findData k "separate" (Etl.getJson agg)
      = Some (newCounts k (Z.of_nat <$> Etl.data c)) ∧
      ∀ n, get n (newCounts k (Z.of_nat <$> Etl.data c)) = Z.of_nat (Etl.get n c).
Proof.
  destruct (run_from_constructor games) as (agg & Hagg & Hok & Hdom & Horder & _).
  exists agg. split; [exact Hagg|]. clear Hagg.
  assert (Hlisted : ∀ k, is_Some (Etl.counts agg !! k) → k ∈ Etl.keyOrder agg).
  { pose proof constructor_keys as Hkeys. revert Hdom Horder Hkeys.
    generalize Etl.constructor. intros c0 Hdom Horder Hkeys k Hk.
    rewrite Horder. apply Hkeys. apply elem_of_dom. rewrite <- Hdom.
    by apply elem_of_dom. }
  clear Hdom Horder. intros k c Hc.
  split; [|intros n; apply vis_get_of_nat].
  unfold Etl.getJson. apply (findData_getJson _ _ k "separate" c Hok); [|exact Hc].
  apply Hlisted. by eexists.
Qed.

(** X22. The front end names the 64 cells as the aggregator does, so
    every key it looks up for a destination is a key of the constructor's
    table. *)
Theorem rowColString_getRowColName (r c : nat) (suffix : string) :
  (r < 8)%nat → (c < 8)%nat → suffix ∈ Etl.ELO_SUFFIXES →
  rowColString (8 * r + c) = Etl.getRowColName r c ∧
  is_Some (Etl.counts Etl.constructor
             !! ("pos_" +:+ rowColString (8 * r + c) +:+ suffix)).
Proof.
  intros Hr Hc Hs.
  assert (Hall : Forall (λ r, Forall (λ c, Forall (λ suffix,
            rowColString (8 * r + c) = Etl.getRowColName r c ∧
            is_Some (Etl.counts Etl.constructor
                       !! ("pos_" +:+ rowColString (8 * r + c) +:+ suffix)))
          Etl.ELO_SUFFIXES) (seq 0 8)) (seq 0 8)).
  { apply (bool_decide_eq_true_1 _). vm_compute. reflexivity. }
  rewrite Forall_forall in Hall.
  specialize (Hall r ltac:(apply elem_of_seq; lia)). rewrite Forall_forall in Hall.
  specialize (Hall c ltac:(apply elem_of_seq; lia)). rewrite Forall_forall in Hall.
  exact (Hall suffix Hs).
Qed.

Lemma rowColString_getRowColName_witness :
  Vis.rowColString (8 * 4 + 3) = Etl.getRowColName 4 3 ∧
  is_Some (Etl.counts Etl.constructor !! ("pos_" +:+ Vis.rowColString (8 * 4 + 3) +:+ "_hi")).
Proof.
  apply (rowColString_getRowColName 4 3 "_hi"); [lia | lia |].
  apply (bool_decide_eq_true_1 _). vm_compute. reflexivity.
Defined.

(** X23. The heat map has one cell per destination, in the order a1,
    a2, ..., h8, each with the value [get] reads at the current time; so
    at time 0 (or below) every cell shows 0. *)
Theorem heatmap_cells (suffix aggregation : string) (DATA : list Datum)
    (ds : DataSources) (currentTime : Z) :
  processDataSources suffix aggregation DATA = Some ds →
  length (extractHeatmapData ds currentTime) = 64%nat ∧
  (∀ i : nat, (i < 64)%nat →
     ∃ c, findData ("pos_" +:+ rowColString i +:+ suffix) aggregation DATA = Some c ∧
          extractHeatmapData ds currentTime !! i
          = Some (MkHeatCell (nth_error files (i / 8)) (nth_error ranks (i mod 8))
                    (get currentTime c))) ∧
  (currentTime ≤ 0 →
   Forall (λ cell, h_value cell = 0) (extractHeatmapData ds currentTime)).
Proof.
  intros Hds. apply processDataSources_Some in Hds as (_ & _ & Hcells).
  apply mapM_Some in Hcells.
  assert (Hlen : length (destination ds) = 64%nat).
  { by rewrite <- (Forall2_length _ _ _ Hcells). }
  unfold extractHeatmapData. split; [by rewrite length_fmap|]. split.
  - intros i Hi.
    destruct (Forall2_lookup_l _ _ _ i i Hcells) as (d & Hd & Hfound).
    { by apply lookup_seq_lt. }
    simpl in Hfound.
    destruct (findData _ aggregation DATA) as [c|]; [|done].
    exists c. split; [done|]. rewrite list_lookup_fmap, Hd.
    simpl in Hfound. injection Hfound as <-. cbn [fmap option_fmap option_map n_name n_data].
    f_equal. f_equal.
    + assert (Hx : Forall (λ i, charAt (rowColString i) 0 = nth_error files (i / 8))
                     (seq 0 64))
        by (apply (bool_decide_eq_true_1 _); vm_compute; reflexivity).
      rewrite Forall_forall in Hx. apply Hx. apply elem_of_seq. lia.
    + assert (Hy : Forall (λ i, charAt (rowColString i) 1 = nth_error ranks (i mod 8))
                     (seq 0 64))
        by (apply (bool_decide_eq_true_1 _); vm_compute; reflexivity).
      rewrite Forall_forall in Hy. apply Hy. apply elem_of_seq. lia.
  - intros Ht. apply Forall_fmap, Forall_forall. intros d _. simpl.
    unfold get. by replace (currentTime <=? 0) with true by (symmetry; apply Z.leb_le; lia).
Qed.

Lemma heatmap_cells_witness :
  ∃ ds, Vis.processDataSources "" "separate" sampleBlob = Some ds ∧
    length (extractHeatmapData ds 1) = 64%nat.
Proof.
  destruct (Vis.processDataSources "" "separate" sampleBlob) as [ds|] eqn:Hds;
    [|vm_compute in Hds; discriminate Hds].
  exists ds. split; [reflexivity|].
  exact (proj1 (heatmap_cells "" "separate" sampleBlob ds 1 Hds)).
Defined.

End FrontEnd.
